(** * Duplicate / build-slide page remover: a shallow embedding

    The program under study is [src/cod/duplicatepageremover.py].  It walks a
    directory tree, and for every PDF drops each page whose top strip renders
    to the same pixels as the page that follows it.

    The PyMuPDF library ([fitz]) and the operating system are external
    collaborators.  They are modelled as two interfaces ([Fitz] and [OS]);
    every call that crosses the boundary is recorded in an event log, so that
    statements such as "no page is rasterised" or "nothing is deleted before
    the scan ends" are statements about the log.  An event records that a
    call was made, with its arguments; whether the call then raised is read
    off the outcome of the computation. *)

From Stdlib Require Import Floats ZArith Ascii.
From stdpp Require Import base list gmap sorting strings pretty.

Open Scope float_scope.
Open Scope nat_scope.

(** ** Data *)

(** [fitz.Rect]: four Python floats, that is IEEE-754 binary64 numbers. *)
Record Rect := mkRect { x0 : float; y0 : float; x1 : float; y1 : float }.

(** [fitz.Matrix(zoom_x, zoom_y)]. *)
Record Matrix := mkMatrix { zoom_x : float; zoom_y : float }.

#[global] Instance byte_eq_dec : EqDecision Byte.byte := Byte.byte_eq_dec.

(** A Python [bytes] object. *)
Definition bytes := list Byte.byte.

(** [fitz.Pixmap]; only its [samples] attribute is read. *)
Record Pixmap := mkPixmap { samples : bytes }.

(** A [pathlib.Path], as its list of components. *)
Definition Path := list string.

(** Keyword arguments of [Document.save]. *)
Record SaveOpts := mkSaveOpts { garbage : Z; deflate : bool }.

(** [doc.save(str(dst_path))]: PyMuPDF's defaults. *)
Definition save_defaults : SaveOpts := mkSaveOpts 0 false.

Inductive Exn := LoadError | IndexError | ValueError | OSError.

(** How a piece of Python code ends: it returns, it raises, or [sys.exit]
    unwinds the interpreter. *)
Inductive Outcome (A : Type) :=
| Return (a : A)
| Raise (e : Exn)
| SysExit (code : Z).
Arguments Return {A} a.
Arguments Raise {A} e.
Arguments SysExit {A} code.

(** ** The PyMuPDF interface

    A document is the list of its pages; a [Page] is whatever the library
    needs to know about one page.  [page_get_pixmap] is deterministic: the
    same page, matrix and clip give the same pixmap.  Rendering a page of a
    document that opened is taken to succeed; a document that cannot be
    read fails at [fitz_open].  [save_fault name dst] is the exception, if
    any, with which saving the document opened from [name] to [dst] fails
    for a reason of its own (an encrypted document, a destination that
    cannot be written); the two refusals that [Document.save] always
    makes are written out in [save_error] below. *)
Class Fitz := {
  Page : Type;
  page_rect : Page → Rect;                          (* page.rect *)
  rect_width : Rect → float;                        (* Rect.width *)
  rect_height : Rect → float;                       (* Rect.height *)
  page_get_pixmap : Page → Matrix → Rect → Pixmap;  (* page.get_pixmap(matrix=, clip=) *)
  fitz_open : Path → option (list Page);            (* fitz.open(path); None: unreadable *)
  save_fault : Path → Path → option Exn;            (* what else makes doc.save raise *)
}.

(** ** The operating system interface used by [main]

    [os.walk] is a lazy generator: a directory is listed when the loop of
    [main] comes to it, after [main] has written what it wrote for the
    directories before.  [os_walk p] is the sequence of triples that the
    generator yields in the course of the run, in order; when the
    destination lies inside the source it includes the directories and
    files that [main] itself created by then.  [copy2_fault src dst] is
    the exception, if any, that [shutil.copy2 src dst] raises for a
    reason of its own (a dangling symbolic link, a file that cannot be
    read or written); its refusal to copy a file onto itself is written
    out in [copy2_error] below. *)
Class OS := {
  path_resolve : string → Path;                     (* Path(s).resolve() *)
  path_exists : Path → bool;                        (* Path.exists() *)
  os_walk : Path → list (Path * list string * list string);  (* what os.walk(p) yields *)
  copy2_fault : Path → Path → option Exn;           (* what else makes shutil.copy2 raise *)
}.

Section Program.
Context {fitz : Fitz} {os : OS}.

(** ** Event log and the effect monad *)

Inductive Event :=
| EvOpen (src : Path)
| EvGetPixmap (page : Page) (mat : Matrix) (clip : Rect)
| EvDeletePage (pg : nat)
| EvMkdir (dir : Path)
| EvSave (dst : Path) (opts : SaveOpts) (doc : list Page)
| EvClose
| EvCopy2 (src dst : Path)
| EvPrint (text : string).

(** A computation yields an outcome and the events it performed, in order. *)
Definition M (A : Type) : Type := Outcome A * list Event.

Definition M_ret {A} (a : A) : M A := (Return a, []).

Definition M_bind {A B} (f : A → M B) (m : M A) : M B :=
  match m with
  | (Return a, l1) => let '(r, l2) := f a in (r, l1 ++ l2)
  | (Raise e, l1) => (Raise e, l1)
  | (SysExit c, l1) => (SysExit c, l1)
  end.

#[global] Instance M_mret : MRet M := @M_ret.
#[global] Instance M_mbind : MBind M := @M_bind.

Definition tell (e : Event) : M unit := (Return (), [e]).
Definition raise {A} (e : Exn) : M A := (Raise e, []).
Definition sys_exit {A} (code : Z) : M A := (SysExit code, []).

(** [for x in l: s = body(s, x)] *)
Fixpoint for_in {A S} (l : list A) (body : S → A → M S) (s : S) : M S :=
  match l with
  | [] => mret s
  | x :: l' => s' ← body s x; for_in l' body s'
  end.

(** [range(lo, hi)] *)
Definition range (lo hi : nat) : list nat := seq lo (hi - lo).

(** ** Library calls, with their events *)

Definition open (src : Path) : M (list Page) :=
  tell (EvOpen src);;
  match fitz_open src with
  | Some doc => mret doc
  | None => raise LoadError
  end.

Definition get_pixmap (page : Page) (mat : Matrix) (clip : Rect) : M Pixmap :=
  tell (EvGetPixmap page mat clip);;
  mret (page_get_pixmap page mat clip).

(** [doc[i]] for a non-negative [i]. *)
Definition getitem (doc : list Page) (i : nat) : M Page :=
  match doc !! i with
  | Some page => mret page
  | None => raise IndexError
  end.

(** [doc.delete_page(pg)] for a non-negative [pg]: PyMuPDF raises
    [ValueError] on a page number that is not below the page count;
    otherwise the page goes and the pages above it move down by one. *)
Definition delete_page (doc : list Page) (pg : nat) : M (list Page) :=
  tell (EvDeletePage pg);;
  if bool_decide (pg < length doc) then mret (delete pg doc)
  else raise ValueError.

(** [dir.mkdir(parents=True, exist_ok=True)].  The event names the
    directory asked for; the ancestors that [parents=True] creates on
    the way are not listed.  The call is taken to succeed. *)
Definition mkdir (dir : Path) : M unit := tell (EvMkdir dir).

(** The exception that [doc.save(dst)] raises, if any, on the document
    opened from [name] whose pages are now [doc].  PyMuPDF refuses, with
    [ValueError], to save onto the file the document was opened from
    ("save to original must be incremental") and to save a document
    without pages ("cannot save with zero pages"). *)
Definition save_error (name : Path) (doc : list Page) (dst : Path)
    : option Exn :=
  if bool_decide (dst = name) then Some ValueError
  else if bool_decide (length doc = 0) then Some ValueError
  else save_fault name dst.

(** [doc.save(dst, ...)]; [name] is [doc.name], the path the document
    was opened from. *)
Definition save (name : Path) (doc : list Page) (dst : Path)
    (opts : SaveOpts) : M unit :=
  tell (EvSave dst opts doc);;
  match save_error name doc dst with
  | Some e => raise e
  | None => mret ()
  end.

Definition close : M unit := tell EvClose.

(** The exception that [shutil.copy2(src, dst)] raises, if any.  A file
    is not copied onto itself ([SameFileError], an [OSError]). *)
Definition copy2_error (src dst : Path) : option Exn :=
  if bool_decide (dst = src) then Some OSError else copy2_fault src dst.

(** [shutil.copy2(src, dst)] *)
Definition copy2 (src dst : Path) : M unit :=
  tell (EvCopy2 src dst);;
  match copy2_error src dst with
  | Some e => raise e
  | None => mret ()
  end.

Definition print (text : string) : M unit := tell (EvPrint text).

(** [path.parent] *)
Definition parent (p : Path) : Path := removelast p.

(** ** Configuration *)

#[warnings="-inexact-float"]
Definition TOP_FRAC : float := 0.10.

(** The integer 150; it only occurs in the true division [DPI / 72]. *)
Definition DPI : float := 150.

(** ** [render_region] *)

Definition render_region (page : Page) (clip : Rect) : M bytes :=
  let mat := mkMatrix (DPI / 72) (DPI / 72) in
  pix ← get_pixmap page mat clip;
  let data := samples pix in
  mret data.

(** ** [regions_match]

    [(wa, ha) != (wb, hb)] on tuples of floats is the negation of the
    componentwise [==].  (Python tries [is] before [==] on the items; the
    two differ only on one NaN object met on both sides, which widths and
    heights computed from the coordinates of two rectangles are not.) *)
Definition tuple_ne (p q : float * float) : bool :=
  negb (PrimFloat.eqb p.1 q.1 && PrimFloat.eqb p.2 q.2).

Definition regions_match (page_a page_b : Page) : M bool :=
  let rect_a := page_rect page_a in
  let rect_b := page_rect page_b in
  if tuple_ne (rect_width rect_a, rect_height rect_a)
              (rect_width rect_b, rect_height rect_b)
  then mret false
  else
    let h := rect_height rect_a in
    let top_clip := mkRect (x0 rect_a) (y0 rect_a)
                           (x1 rect_a) (y0 rect_a + h * TOP_FRAC)%float in
    data_a ← render_region page_a top_clip;
    data_b ← render_region page_b top_clip;
    if bool_decide (data_a ≠ data_b) then mret false
    else mret true.

(** ** [process_pdf] *)

(** [sorted(set(l), reverse=True)]: the distinct elements, largest first. *)
Definition sorted_set_reverse (l : list nat) : list nat :=
  merge_sort (flip (≤)) (elements (list_to_set l : gset nat)).

Definition process_pdf (src_path dst_path : Path) : M nat :=
  doc ← open src_path;
  let n_pages := length doc in
  if bool_decide (n_pages ≤ 1) then
    mkdir (parent dst_path);;
    save src_path doc dst_path save_defaults;;
    close;;
    mret 0
  else
    pages_to_delete ←
      for_in (range 1 n_pages) (λ (pages_to_delete : list nat) (i : nat),
        prev_page ← getitem doc (i - 1);
        curr_page ← getitem doc i;
        dup ← regions_match prev_page curr_page;
        if (dup : bool) then mret (pages_to_delete ++ [i - 1])
        else mret pages_to_delete) [];
    let pages_to_delete := sorted_set_reverse pages_to_delete in
    doc ← for_in pages_to_delete delete_page doc;
    mkdir (parent dst_path);;
    save src_path doc dst_path (mkSaveOpts 4 true);;
    close;;
    mret (length pages_to_delete).

(** ** [main] *)

(** [str.lower] on the ASCII letters (the others are left alone; no
    character outside ASCII lowers to one of [.pdf]). *)
Definition ascii_lower (c : ascii) : ascii :=
  let n := nat_of_ascii c in
  if bool_decide (65 ≤ n ≤ 90) then ascii_of_nat (n + 32) else c.

Fixpoint lower (s : string) : string :=
  match s with
  | EmptyString => EmptyString
  | String c s' => String (ascii_lower c) (lower s')
  end.

Definition endswith (s suffix : string) : bool :=
  let n := String.length s in
  let m := String.length suffix in
  bool_decide (m ≤ n) && String.eqb (String.substring (n - m) m s) suffix.

Definition nl : string := String (ascii_of_nat 10) EmptyString.

Fixpoint join (sep : string) (l : list string) : string :=
  match l with
  | [] => EmptyString
  | [x] => x
  | x :: l' => x +:+ sep +:+ join sep l'
  end.

(** [str(p)] for an absolute path and for a relative one. *)
Definition str_abs (p : Path) : string := "/" +:+ join "/" p.
Definition str_rel (p : Path) : string :=
  match p with [] => "." | _ => join "/" p end.

(** [p.relative_to(base)] *)
Fixpoint relative_to (p base : Path) : M Path :=
  match base, p with
  | [], _ => mret p
  | b :: base', c :: p' =>
      if bool_decide (b = c) then relative_to p' base' else raise ValueError
  | _ :: _, [] => raise ValueError
  end.

(** The loop counters of [main]. *)
Record Counters := mkCounters {
  total_removed : nat; pdf_count : nat; other_count : nat }.

(** [main], after [argparse] has produced [args.src] and [args.dst]. *)
Definition main (src dst : string) : M unit :=
  let SRC_DIR := path_resolve src in
  let DST_DIR := path_resolve dst in
  (if negb (path_exists SRC_DIR) then
     print ("Source directory not found: " +:+ str_abs SRC_DIR +:+ nl);;
     sys_exit 1
   else mret ());;
  print ("Source : " +:+ str_abs SRC_DIR +:+ nl);;
  print ("Dest   : " +:+ str_abs DST_DIR +:+ nl);;
  print nl;;
  c ← for_in (os_walk SRC_DIR) (λ (c : Counters) '(root, _dirs, files),
    let root_path : Path := root in
    rel ← relative_to root_path SRC_DIR;
    for_in files (λ (c : Counters) (fname : string),
      let src_file := root_path ++ [fname] in
      let dst_file := DST_DIR ++ rel ++ [fname] in
      if endswith (lower fname) ".pdf" then
        let pdf_count := pdf_count c + 1 in
        print ("Processing: " +:+ str_rel (rel ++ [fname]) +:+ " ... ");;
        removed ← process_pdf src_file dst_file;
        let total_removed := total_removed c + removed in
        print ("removed " +:+ pretty removed +:+ " pages" +:+ nl);;
        mret (mkCounters total_removed pdf_count (other_count c))
      else
        mkdir (parent dst_file);;
        copy2 src_file dst_file;;
        let other_count := other_count c + 1 in
        print ("Copied    : " +:+ str_rel (rel ++ [fname]) +:+ nl);;
        mret (mkCounters (total_removed c) (pdf_count c) other_count)) c)
    (mkCounters 0 0 0);
  print nl;;
  print ("Done — " +:+ pretty (pdf_count c) +:+ " PDFs processed, "
         +:+ pretty (total_removed c) +:+ " total duplicate pages removed, "
         +:+ pretty (other_count c) +:+ " other files copied." +:+ nl).

(** The exit status of the interpreter running [main]: 0 after a normal
    return, 1 after an uncaught exception, the argument of [sys.exit]
    otherwise. *)
Definition exit_status {A} (o : Outcome A) : Z :=
  match o with
  | Return _ => 0
  | Raise _ => 1
  | SysExit code => code
  end.

(** ** Reading a log *)

Definition deletions (log : list Event) : list nat :=
  omap (λ e, match e with EvDeletePage pg => Some pg | _ => None end) log.

Definition saves (log : list Event) : list (Path * list Page) :=
  omap (λ e, match e with EvSave dst _ doc => Some (dst, doc) | _ => None end) log.

Definition renders (log : list Event) : list (Page * Rect) :=
  omap (λ e, match e with EvGetPixmap p _ clip => Some (p, clip) | _ => None end) log.

Definition opens (log : list Event) : list Path :=
  omap (λ e, match e with EvOpen src => Some src | _ => None end) log.

(** The calls that write to the file system, whether or not they then
    succeed. *)
Definition is_write (e : Event) : bool :=
  match e with
  | EvMkdir _ | EvSave _ _ _ | EvCopy2 _ _ => true
  | _ => false
  end.

Definition writes (log : list Event) : list Event := filter is_write log.

End Program.

(** ** Equality of binary64 numbers *)

(** When two binary64 numbers compare equal, both are zeros, or both are
    the same infinity, or both are the same finite number. *)
Definition sf_same (f1 f2 : spec_float) : Prop :=
  match f1, f2 with
  | S754_zero _, S754_zero _ => True
  | S754_infinity s1, S754_infinity s2 => s1 = s2
  | S754_finite s1 m1 e1, S754_finite s2 m2 e2 => s1 = s2 ∧ m1 = m2 ∧ e1 = e2
  | _, _ => False
  end.

(** ** The vocabulary of the specification

    These definitions follow the words of the specification; the theorems
    below compare them with the program. *)

Section Specification.
Context {fitz : Fitz}.

(** "equal (width, height)", with Python's [==] on floats. *)
Definition same_dims (a b : Page) : Prop :=
  PrimFloat.eqb (rect_width (page_rect a)) (rect_width (page_rect b)) = true ∧
  PrimFloat.eqb (rect_height (page_rect a)) (rect_height (page_rect b)) = true.

(** "top region = clip from y0 to y0 + 0.10 * height, spanning full width". *)
#[warnings="-inexact-float"]
Definition top_region (r : Rect) : Rect :=
  mkRect (x0 r) (y0 r) (x1 r) (y0 r + rect_height r * 0.10)%float.

(** "rendered at the configured DPI": 150 dots per inch, 72 points per inch. *)
Definition dpi_matrix : Matrix := mkMatrix (150 / 72) (150 / 72).

(** The pixel buffer of a clip of a page. *)
Definition pixels (clip : Rect) (p : Page) : bytes :=
  samples (page_get_pixmap p dpi_matrix clip).

(** The duplicate criterion on an earlier page [a] and a later page [b]:
    equal dimensions and byte-identical top regions, the region being laid
    out on the earlier page's rectangle. *)
Definition duplicate_pair (a b : Page) : Prop :=
  same_dims a b ∧
  pixels (top_region (page_rect a)) a = pixels (top_region (page_rect a)) b.

#[global] Instance same_dims_dec a b : Decision (same_dims a b).
Proof. unfold same_dims. apply _. Defined.

#[global] Instance duplicate_pair_dec a b : Decision (duplicate_pair a b).
Proof. unfold duplicate_pair. apply _. Defined.

(** Page [j] of [doc] and the page after it form a duplicate pair. *)
Definition dup_at (doc : list Page) (j : nat) : Prop :=
  match doc !! j, doc !! S j with
  | Some a, Some b => duplicate_pair a b
  | _, _ => False
  end.

#[global] Instance dup_at_dec doc j : Decision (dup_at doc j).
Proof. unfold dup_at. destruct (doc !! j), (doc !! S j); apply _. Defined.

(** The DeletionSet: the earlier index of every adjacent duplicate pair. *)
Definition marked (doc : list Page) : list nat :=
  filter (dup_at doc) (seq 0 (length doc - 1)).

(** The page sequence with every page dropped that is a duplicate of its
    successor. *)
Fixpoint prune (doc : list Page) : list Page :=
  match doc with
  | [] => []
  | a :: rest =>
      match rest with
      | [] => [a]
      | b :: _ => if decide (duplicate_pair a b) then prune rest
                  else a :: prune rest
      end
  end.

(** What the forward scan does at step [i] of [range(1, n_pages)]: the
    events of the detector on pages [i-1] and [i]. *)
Definition step_log (doc : list Page) (i : nat) : list Event :=
  match doc !! (i - 1), doc !! i with
  | Some a, Some b => (regions_match a b).2
  | _, _ => []
  end.

(** The events of the whole scan over the adjacent pairs, in order. *)
Definition scan_log (doc : list Page) : list Event :=
  flat_map (step_log doc) (range 1 (length doc)).

(** The indices of [dels] are valid one after the other on a document of
    [n] pages that loses a page at each step. *)
Fixpoint deletions_valid (n : nat) (dels : list nat) : Prop :=
  match dels with
  | [] => True
  | pg :: rest => pg < n ∧ deletions_valid (n - 1) rest
  end.

(** Removal regenerates no duplicate: two kept pages that become
    neighbours because every page between them is dropped are not a
    duplicate pair. *)
Definition no_regenerated (doc : list Page) : Prop :=
  ∀ i j a b, S i < j → doc !! i = Some a → doc !! j = Some b →
    ¬ dup_at doc i → (∀ m, i < m < j → dup_at doc m) → ¬ dup_at doc j →
    ¬ duplicate_pair a b.

(** The pages of [doc] found at the indices of [indices] that are not the
    earlier index of a duplicate pair, in the order of [indices]. *)
Definition survivors (doc : list Page) (indices : list nat) : list Page :=
  omap (λ i, doc !! i) (filter (λ i, ¬ dup_at doc i) indices).

End Specification.

(** ** The batch walk, piece by piece

    The two loop bodies of [main], under names of their own, and the
    vocabulary in which the walk is described. *)

Section Walk.
Context {fitz : Fitz} {os : OS}.

(** The test of [main] on a file name. *)
Definition is_pdf (fname : string) : bool := endswith (lower fname) ".pdf".

(** The body of the inner loop of [main]. *)
Definition handle_file (DST_DIR root_path rel : Path)
    (c : Counters) (fname : string) : M Counters :=
  let src_file := root_path ++ [fname] in
  let dst_file := DST_DIR ++ rel ++ [fname] in
  if endswith (lower fname) ".pdf" then
    let pdf_count := pdf_count c + 1 in
    print ("Processing: " +:+ str_rel (rel ++ [fname]) +:+ " ... ");;
    removed ← process_pdf src_file dst_file;
    let total_removed := total_removed c + removed in
    print ("removed " +:+ pretty removed +:+ " pages" +:+ nl);;
    mret (mkCounters total_removed pdf_count (other_count c))
  else
    mkdir (parent dst_file);;
    copy2 src_file dst_file;;
    let other_count := other_count c + 1 in
    print ("Copied    : " +:+ str_rel (rel ++ [fname]) +:+ nl);;
    mret (mkCounters (total_removed c) (pdf_count c) other_count).

(** The body of the outer loop of [main]. *)
Definition handle_dir (SRC_DIR DST_DIR : Path)
    (c : Counters) (entry : Path * list string * list string) : M Counters :=
  let '(root, _dirs, files) := entry in
  let root_path : Path := root in
  rel ← relative_to root_path SRC_DIR;
  for_in files (handle_file DST_DIR root_path rel) c.

(** The last line printed by [main]. *)
Definition summary (c : Counters) : string :=
  "Done — " +:+ pretty (pdf_count c) +:+ " PDFs processed, "
  +:+ pretty (total_removed c) +:+ " total duplicate pages removed, "
  +:+ pretty (other_count c) +:+ " other files copied." +:+ nl.

Definition copies (log : list Event) : list (Path * Path) :=
  omap (λ e, match e with EvCopy2 src dst => Some (src, dst) | _ => None end)
       log.

(** The paths handed to the calls that write: the directory of a
    [mkdir], the destination of a [save] or of a copy. *)
Definition targets (log : list Event) : list Path :=
  omap (λ e, match e with
             | EvMkdir dir => Some dir
             | EvSave dst _ _ => Some dst
             | EvCopy2 _ dst => Some dst
             | _ => None
             end) log.

(** The files met by a walk whose name passes [keep], in the order of the
    walk, as full paths. *)
Definition walk_paths (keep : string → bool)
    (walk : list (Path * list string * list string)) : list Path :=
  flat_map (λ '(root, _, files),
              (λ fname, root ++ [fname]) <$> filter keep files) walk.

(** The place of a source path in the destination tree: the same
    relative location under the destination root. *)
Definition mirror (SRC_DIR DST_DIR p : Path) : Path :=
  DST_DIR ++ drop (length SRC_DIR) p.

(** The pages of the document at a path (none when it cannot be read). *)
Definition pages_at (p : Path) : list Page := default [] (fitz_open p).

(** Every directory of the walk lies under the root that was walked. *)
Definition walk_under (SRC_DIR : Path)
    (walk : list (Path * list string * list string)) : Prop :=
  Forall (λ '(root, _, _), SRC_DIR `prefix_of` root) walk.

(** Every PDF met by the walk can be opened. *)
Definition walk_readable
    (walk : list (Path * list string * list string)) : Prop :=
  Forall (λ p, is_Some (fitz_open p)) (walk_paths is_pdf walk).

(** No save and no copy of the walk fails: every PDF is saved, pruned, at
    its mirrored path without [Document.save] raising, and every other
    file is copied to its mirrored path without [shutil.copy2] raising. *)
Definition walk_faultless (SRC_DIR DST_DIR : Path)
    (walk : list (Path * list string * list string)) : Prop :=
  Forall (λ p, save_error p (prune (pages_at p)) (mirror SRC_DIR DST_DIR p)
               = None)
         (walk_paths is_pdf walk)
  ∧ Forall (λ p, copy2_error p (mirror SRC_DIR DST_DIR p) = None)
           (walk_paths (λ fname, negb (is_pdf fname)) walk).

(** One file goes through: a PDF can be opened and its save does not
    raise; another file is copied without [shutil.copy2] raising. *)
Definition file_ok (DST_DIR root rel : Path) (fname : string) : Prop :=
  let src_file := root ++ [fname] in
  let dst_file := DST_DIR ++ rel ++ [fname] in
  if is_pdf fname then
    is_Some (fitz_open src_file)
    ∧ save_error src_file (prune (pages_at src_file)) dst_file = None
  else copy2_error src_file dst_file = None.

(** A log treats the files of a walk as the batch contract says: the PDFs
    are the files opened, in the order of the walk; each one is saved, in
    its pruned form, at the mirrored path; every other file is copied to
    its mirrored path. *)
Definition routed (SRC_DIR DST_DIR : Path)
    (walk : list (Path * list string * list string))
    (log : list Event) : Prop :=
  opens log = walk_paths is_pdf walk
  ∧ saves log
    = (λ p, (mirror SRC_DIR DST_DIR p, prune (pages_at p)))
      <$> walk_paths is_pdf walk
  ∧ copies log
    = (λ p, (p, mirror SRC_DIR DST_DIR p))
      <$> walk_paths (λ fname, negb (is_pdf fname)) walk.

(** The counters [c'] are the counters [c] advanced by what a log shows:
    one PDF per document opened, one page per page deleted, one other
    file per copy. *)
Definition accounted (c c' : Counters) (log : list Event) : Prop :=
  pdf_count c' = pdf_count c + length (opens log)
  ∧ total_removed c' = total_removed c + length (deletions log)
  ∧ other_count c' = other_count c + length (copies log).

End Walk.

(** ** A test double for the library and the file system

    The specification asks for the detector and the processor to be
    testable against a fake rasteriser returning synthetic pixel buffers.
    This is such a fake: a page is a rectangle, a header strip and a body;
    a clip that stays within the top tenth of the page shows the header
    only.  It provides the concrete documents on which the theorems are
    instantiated. *)

Module Fake.

Record page := mkPage { pg_rect : Rect; header : bytes; body : bytes }.

Definition width (r : Rect) : float := (x1 r - x0 r)%float.
Definition height (r : Rect) : float := (y1 r - y0 r)%float.

#[warnings="-inexact-float"]
Definition get_pixmap (p : page) (_ : Matrix) (clip : Rect) : Pixmap :=
  let r := pg_rect p in
  if PrimFloat.leb (y1 clip) (y0 r + height r * 0.10)%float
  then mkPixmap (header p)
  else mkPixmap (header p ++ body p).

(** A 16:9 slide and a 4:3 slide. *)
Definition wide : Rect := mkRect 0 0 720 405.
Definition narrow : Rect := mkRect 0 0 540 405.

Definition title1 : bytes := [Byte.x54; Byte.x31].
Definition title2 : bytes := [Byte.x54; Byte.x32].
Definition title3 : bytes := [Byte.x54; Byte.x33].

Definition intro_step : page := mkPage wide title1 [Byte.x01].
Definition intro_full : page := mkPage wide title1 [Byte.x01; Byte.x02].
Definition method_step1 : page := mkPage wide title2 [Byte.x03].
Definition method_step2 : page := mkPage wide title2 [Byte.x03; Byte.x04].
Definition method_full : page :=
  mkPage wide title2 [Byte.x03; Byte.x04; Byte.x05].
Definition results : page := mkPage wide title3 [Byte.x06].
Definition results_scan : page := mkPage narrow title3 [Byte.x06].
Definition outro : page := mkPage wide title1 [Byte.x07].

(** One build step at the start, a chain of three in the middle. *)
Definition deck : list page :=
  [intro_step; intro_full; method_step1; method_step2; method_full; results].
Definition deck_pruned : list page := [intro_full; method_full; results].

(** Same header throughout, but the middle page has other dimensions. *)
Definition mixed : list page := [results; results_scan; results].

Definition cover : list page := [intro_full].

Definition slides : Path := ["slides"%string].
Definition processed : Path := ["processed"%string].

Definition deck_pdf : Path := slides ++ ["deck.pdf"%string].
Definition deck_out : Path := processed ++ ["deck.pdf"%string].
Definition deck_again : Path := ["again"; "deck.pdf"]%string.
Definition mixed_pdf : Path := slides ++ ["mixed.pdf"%string].
Definition cover_pdf : Path := slides ++ ["cover.pdf"%string].
Definition blank_pdf : Path := slides ++ ["blank.pdf"%string].
Definition blank_out : Path := processed ++ ["blank.pdf"%string].

Definition open (p : Path) : option (list page) :=
  if bool_decide (p = deck_pdf) then Some deck
  else if bool_decide (p = deck_out) then Some deck_pruned
  else if bool_decide (p = mixed_pdf) then Some mixed
  else if bool_decide (p = cover_pdf) then Some cover
  else if bool_decide (p = blank_pdf) then Some []
  else None.

#[global] Instance fitz : Fitz := {|
  Page := page;
  page_rect := pg_rect;
  rect_width := width;
  rect_height := height;
  page_get_pixmap := get_pixmap;
  fitz_open := open;
  save_fault := λ _ _, None;
|}.

#[global] Instance os : OS := {|
  path_resolve := λ s, [s];
  path_exists := λ p, bool_decide (p = slides);
  os_walk := λ p,
    if bool_decide (p = slides)
    then [(slides, [], ["deck.pdf"; "notes.txt"]%string)]
    else [];
  copy2_fault := λ _ _, None;
|}.

End Fake.

(** More file systems over the same library.  In [whole] the walk
    starts at the root and meets sub-directories, and every PDF can be
    read; in [broken] one PDF of a sub-directory cannot; in [dangling]
    one file cannot be copied. *)
Module Trees.

Definition whole_walk : list (Path * list string * list string) :=
  [([], ["slides"%string; "processed"%string], ["README"%string]);
   (Fake.slides, [],
    ["deck.pdf"%string; "notes.txt"%string; "mixed.pdf"%string;
     "cover.pdf"%string]);
   (Fake.processed, [], ["deck.pdf"%string])].

Definition whole : OS := {|
  path_resolve := λ s, if bool_decide (s = "/"%string) then [] else [s];
  path_exists := λ p, bool_decide (p = []);
  os_walk := λ p, if bool_decide (p = []) then whole_walk else [];
  copy2_fault := λ _ _, None;
|}.

Definition broken_walk : list (Path * list string * list string) :=
  [(Fake.slides, ["old"%string], ["notes.txt"%string; "deck.pdf"%string]);
   (Fake.slides ++ ["old"%string], [],
    ["a.txt"%string; "lost.PDF"%string; "b.txt"%string])].

Definition broken : OS := {|
  path_resolve := λ s, [s];
  path_exists := λ p, bool_decide (p = Fake.slides);
  os_walk := λ p, if bool_decide (p = Fake.slides) then broken_walk else [];
  copy2_fault := λ _ _, None;
|}.

(** A directory in which [link.txt] is a symbolic link whose target is
    gone: [shutil.copy2] cannot read it. *)
Definition dangling : OS := {|
  path_resolve := λ s, [s];
  path_exists := λ p, bool_decide (p = Fake.slides);
  os_walk := λ p,
    if bool_decide (p = Fake.slides)
    then [(Fake.slides, [], ["link.txt"%string; "deck.pdf"%string])]
    else [];
  copy2_fault := λ src _,
    if bool_decide (src = Fake.slides ++ ["link.txt"%string])
    then Some OSError else None;
|}.

End Trees.

(** * Proofs *)

Section Proofs.
Context {fitz : Fitz}.

(** ** The effect monad *)

Ltac run_M :=
  unfold tell, raise, sys_exit, mbind, M_mbind, M_bind, mret, M_mret, M_ret;
  simpl.

Lemma bind_return {A B} (a : A) (l : list Event) (f : A → M B) :
  ((Return a, l) ≫= f) = ((f a).1, l ++ (f a).2).
Proof. unfold mbind, M_mbind, M_bind. by destruct (f a). Qed.

Lemma bind_tell {B} (e : Event) (k : M B) :
  (tell e ;; k) = (k.1, e :: k.2).
Proof. unfold tell. by rewrite bind_return. Qed.

Lemma ret_unfold {A} (a : A) : (mret a : M A) = (Return a, []).
Proof. done. Qed.

(** ** [regions_match] against the duplicate criterion *)

Lemma tuple_ne_same_dims a b :
  tuple_ne (rect_width (page_rect a), rect_height (page_rect a))
           (rect_width (page_rect b), rect_height (page_rect b)) = false
  ↔ same_dims a b.
Proof.
  unfold tuple_ne, same_dims. simpl.
  rewrite negb_false_iff, andb_true_iff. done.
Qed.

Lemma regions_match_run a b :
  regions_match a b =
    (Return (bool_decide (duplicate_pair a b)),
     if decide (same_dims a b)
     then [EvGetPixmap a dpi_matrix (top_region (page_rect a));
           EvGetPixmap b dpi_matrix (top_region (page_rect a))]
     else []).
Proof.
  unfold regions_match.
  destruct (tuple_ne _ _) eqn:Hne.
  - assert (¬ same_dims a b) as Hn.
    { intros Hs. apply tuple_ne_same_dims in Hs. congruence. }
    rewrite decide_False by done.
    rewrite bool_decide_eq_false_2; [done|]. by intros [? _].
  - apply tuple_ne_same_dims in Hne.
    rewrite decide_True by done.
    unfold render_region, get_pixmap. run_M.
    case_bool_decide as Hpx; simpl.
    + rewrite bool_decide_eq_false_2; [done|]. by intros [_ ?].
    + rewrite bool_decide_eq_true_2; [done|].
      split; [done|]. exact Hpx.
Qed.

(** ** The forward scan *)

Lemma getitem_Some (doc : list Page) i p :
  doc !! i = Some p → getitem doc i = (Return p, []).
Proof. unfold getitem. by intros ->. Qed.

Lemma scan_loop (doc : list Page) k : ∀ j acc,
  S j + k ≤ length doc →
  for_in (seq (S j) k) (λ (pages_to_delete : list nat) (i : nat),
        prev_page ← getitem doc (i - 1);
        curr_page ← getitem doc i;
        dup ← regions_match prev_page curr_page;
        if (dup : bool) then mret (pages_to_delete ++ [i - 1])
        else mret pages_to_delete) acc
  = (Return (acc ++ filter (dup_at doc) (seq j k)),
     flat_map (step_log doc) (seq (S j) k)).
Proof.
  induction k as [|k IH]; intros j acc Hlen.
  - simpl. by rewrite app_nil_r.
  - destruct (lookup_lt_is_Some_2 doc j) as [a Ha]; [lia|].
    destruct (lookup_lt_is_Some_2 doc (S j)) as [b Hb]; [lia|].
    cbn [seq for_in flat_map].
    replace (S j - 1) with j by lia.
    rewrite (getitem_Some _ _ _ Ha), bind_return; cbn [fst snd app].
    rewrite (getitem_Some _ _ _ Hb), bind_return; cbn [fst snd app].
    rewrite regions_match_run, bind_return. cbn [fst snd].
    rewrite filter_cons.
    unfold step_log at 1. replace (S j - 1) with j by lia.
    rewrite Ha, Hb, regions_match_run. cbn [snd].
    assert (dup_at doc j ↔ duplicate_pair a b) as Hdup.
    { unfold dup_at. by rewrite Ha, Hb. }
    case_bool_decide as Hd.
    + rewrite (decide_True (P:=dup_at doc j)) by (by apply Hdup).
      rewrite ret_unfold. cbn [fst snd]. rewrite app_nil_r, bind_return.
      rewrite IH by lia. cbn [fst snd]. by rewrite <- app_assoc.
    + rewrite (decide_False (P:=dup_at doc j)) by (by rewrite Hdup).
      rewrite ret_unfold. cbn [fst snd]. rewrite app_nil_r, bind_return.
      rewrite IH by lia. done.
Qed.

(** ** The DeletionSet *)

Lemma filter_seq_sorted (P : nat → Prop) `{∀ j, Decision (P j)} k : ∀ j,
  StronglySorted lt (filter P (seq j k)).
Proof.
  induction k as [|k IH]; intros j; [constructor|].
  cbn [seq]. rewrite filter_cons. case_decide; [|apply IH].
  constructor; [apply IH|].
  apply Forall_forall. intros y Hy.
  apply list_elem_of_filter in Hy as [_ Hy]. apply elem_of_seq in Hy. lia.
Qed.

Lemma seq_sorted k : ∀ j, StronglySorted lt (seq j k).
Proof.
  induction k as [|k IH]; intros j; constructor; [apply IH|].
  apply Forall_forall. intros y Hy. apply elem_of_seq in Hy. lia.
Qed.

Lemma marked_sorted (doc : list Page) : StronglySorted lt (marked doc).
Proof. apply filter_seq_sorted. Qed.

Lemma marked_bound (doc : list Page) j : j ∈ marked doc → S j < length doc.
Proof.
  unfold marked. rewrite list_elem_of_filter, elem_of_seq. lia.
Qed.

Lemma reverse_sorted (l : list nat) :
  StronglySorted lt l → StronglySorted (flip lt) (reverse l).
Proof.
  induction 1 as [|x l Hl IH Hx]; [constructor|].
  rewrite reverse_cons. apply StronglySorted_app_2; [|done|repeat constructor].
  intros y z Hy Hz. rewrite elem_of_reverse in Hy.
  apply list_elem_of_singleton in Hz as ->.
  rewrite Forall_forall in Hx. unfold flip. by apply Hx.
Qed.

Lemma sorted_weaken (R1 R2 : relation nat) (l : list nat) :
  (∀ x y, R1 x y → R2 x y) → StronglySorted R1 l → StronglySorted R2 l.
Proof.
  intros HR. induction 1 as [|x l Hl IH Hx]; constructor; [done|].
  eapply Forall_impl; [done|]. intros y. apply HR.
Qed.

Lemma sorted_lt_NoDup (l : list nat) : StronglySorted lt l → NoDup l.
Proof.
  induction 1 as [|x l Hl IH Hx]; [constructor|].
  constructor; [|done]. intros Hin. rewrite Forall_forall in Hx. specialize (Hx _ Hin). lia.
Qed.

(** On a strictly ascending list, [sorted(set(l), reverse=True)] is the
    list read backwards. *)
Lemma sorted_set_reverse_ascending (l : list nat) :
  StronglySorted lt l → sorted_set_reverse l = reverse l.
Proof.
  intros Hl. unfold sorted_set_reverse.
  assert (AntiSymm eq (flip le)) as Hanti.
  { intros x y Hxy Hyx. unfold flip in *. lia. }
  apply (StronglySorted_unique (flip le)).
  - apply StronglySorted_merge_sort.
    + intros x y z. unfold flip. lia.
    + intros x y. unfold flip. lia.
  - eapply sorted_weaken; [|by apply reverse_sorted].
    intros x y. unfold flip. lia.
  - rewrite merge_sort_Permutation, reverse_Permutation.
    apply elements_list_to_set. by apply sorted_lt_NoDup.
Qed.

(** ** The pruning loop *)

Lemma delete_page_valid (doc : list Page) pg :
  pg < length doc →
  delete_page doc pg = (Return (delete pg doc), [EvDeletePage pg]).
Proof.
  intros Hlt. unfold delete_page.
  by rewrite bind_tell, bool_decide_eq_true_2.
Qed.

Lemma delete_loop (dels : list nat) : ∀ doc : list Page,
  StronglySorted (flip lt) dels →
  Forall (λ pg, pg < length doc) dels →
  for_in dels delete_page doc
  = (Return (foldl (λ d pg, delete pg d) doc dels), EvDeletePage <$> dels)
  ∧ deletions_valid (length doc) dels.
Proof.
  induction dels as [|pg dels IH]; intros doc Hs Hb; [done|].
  apply StronglySorted_inv in Hs as [Hs Hpg].
  apply Forall_cons in Hb as [Hlt Hb].
  assert (length (delete pg doc) = length doc - 1) as Hlen.
  { apply length_delete. by apply lookup_lt_is_Some_2. }
  destruct (IH (delete pg doc)) as [Hrun Hvalid]; [done| |].
  { rewrite Hlen. rewrite Forall_forall in Hpg |- *.
    intros y Hy. specialize (Hpg y Hy). unfold flip in Hpg. lia. }
  split.
  - cbn [for_in]. rewrite delete_page_valid, bind_return by done.
    by rewrite Hrun.
  - cbn [deletions_valid]. by rewrite <- Hlen.
Qed.

Lemma foldl_delete_reverse (doc : list Page) (m : list nat) :
  foldl (λ d pg, delete pg d) doc (reverse m) = foldr delete doc m.
Proof.
  induction m as [|j m IH]; [done|].
  by rewrite reverse_cons, foldl_snoc, IH.
Qed.

Lemma filter_fmap_S (P Q : nat → Prop)
    `{∀ j, Decision (P j)} `{∀ j, Decision (Q j)} (l : list nat) :
  (∀ j, P (S j) ↔ Q j) → filter P (S <$> l) = S <$> filter Q l.
Proof.
  intros HPQ. induction l as [|j l IH]; [done|].
  rewrite fmap_cons, !filter_cons, IH.
  destruct (decide (P (S j))) as [HP|HP], (decide (Q j)) as [HQ|HQ];
    [done| | |done]; exfalso.
  - by apply HQ, HPQ.
  - by apply HP, HPQ.
Qed.

Lemma marked_cons (a b : Page) (rest : list Page) :
  marked (a :: b :: rest)
  = (if decide (duplicate_pair a b) then [0] else [])
    ++ (S <$> marked (b :: rest)).
Proof.
  unfold marked. cbn [length]. rewrite !Nat.sub_succ, !Nat.sub_0_r.
  cbn [seq]. rewrite filter_cons, <- fmap_S_seq.
  rewrite (filter_fmap_S _ (dup_at (b :: rest))) by done.
  unfold dup_at at 1. cbn [lookup list_lookup].
  by destruct (decide (duplicate_pair a b)).
Qed.

Lemma foldr_delete_cons (a : Page) (doc : list Page) (m : list nat) :
  foldr delete (a :: doc) (S <$> m) = a :: foldr delete doc m.
Proof. induction m as [|j m IH]; [done|]. cbn. by rewrite IH. Qed.

Lemma prune_cons (a b : Page) (rest : list Page) :
  prune (a :: b :: rest)
  = if decide (duplicate_pair a b) then prune (b :: rest)
    else a :: prune (b :: rest).
Proof. done. Qed.

(** Deleting the marked indices is dropping every page that duplicates
    its successor. *)
Lemma delete_marked_prune (doc : list Page) :
  foldr delete doc (marked doc) = prune doc.
Proof.
  induction doc as [|a [|b rest] IH]; [done|done|].
  rewrite marked_cons, prune_cons.
  destruct (decide (duplicate_pair a b)).
  - cbn [app foldr]. by rewrite foldr_delete_cons, IH.
  - cbn [app]. by rewrite foldr_delete_cons, IH.
Qed.

(** ** [process_pdf], event by event *)

Lemma open_Some (src : Path) (doc : list Page) :
  fitz_open src = Some doc → open src = (Return doc, [EvOpen src]).
Proof. intros Hopen. unfold open. by rewrite bind_tell, Hopen. Qed.

Lemma marked_short (doc : list Page) : length doc ≤ 1 → marked doc = [].
Proof. intros Hn. unfold marked. by replace (length doc - 1) with 0 by lia. Qed.

Lemma prune_short (doc : list Page) : length doc ≤ 1 → prune doc = doc.
Proof. destruct doc as [|a [|b rest]]; [done|done|]. cbn [length]. lia. Qed.

Lemma scan_log_short (doc : list Page) : length doc ≤ 1 → scan_log doc = [].
Proof.
  intros Hn. unfold scan_log, range.
  by replace (length doc - 1) with 0 by lia.
Qed.

(** What follows the pruning loop: the directory, the save, and, when
    the save does not raise, the close and the return. *)
Lemma finish_run {A} (name dst : Path) (doc : list Page) (opts : SaveOpts)
    (r : A) :
  (mkdir (parent dst);; save name doc dst opts;; close;; mret r)
  = (match save_error name doc dst with
     | None => Return r
     | Some e => Raise e
     end,
     [EvMkdir (parent dst); EvSave dst opts doc]
     ++ match save_error name doc dst with
        | None => [EvClose]
        | Some _ => []
        end).
Proof.
  unfold mkdir, save, close. rewrite bind_tell.
  destruct (save_error name doc dst) as [e|].
  - by rewrite bind_tell.
  - by rewrite !bind_tell, ret_unfold.
Qed.

Lemma process_pdf_run (src dst : Path) (doc : list Page) :
  fitz_open src = Some doc →
  process_pdf src dst =
    (match save_error src (prune doc) dst with
     | None => Return (length (marked doc))
     | Some e => Raise e
     end,
     EvOpen src :: scan_log doc
     ++ (EvDeletePage <$> reverse (marked doc))
     ++ [EvMkdir (parent dst);
         EvSave dst (if bool_decide (length doc ≤ 1) then save_defaults
                     else mkSaveOpts 4 true) (prune doc)]
     ++ match save_error src (prune doc) dst with
        | None => [EvClose]
        | Some _ => []
        end).
Proof.
  intros Hopen. unfold process_pdf.
  rewrite (open_Some _ _ Hopen), bind_return. cbn [app fst snd].
  case_bool_decide as Hn.
  { rewrite finish_run, scan_log_short, marked_short, prune_short by done.
    done. }
  unfold range.
  rewrite (scan_loop doc (length doc - 1) 0 []) by lia.
  rewrite bind_return. cbn [app fst snd].
  fold (marked doc). fold (range 1 (length doc)). fold (scan_log doc).
  rewrite sorted_set_reverse_ascending by apply marked_sorted.
  destruct (delete_loop (reverse (marked doc)) doc) as [Hrun _].
  { apply reverse_sorted, marked_sorted. }
  { apply Forall_forall. intros j Hj. rewrite elem_of_reverse in Hj.
    apply marked_bound in Hj. lia. }
  rewrite Hrun, bind_return, foldl_delete_reverse, delete_marked_prune.
  by rewrite length_reverse, finish_run.
Qed.

(** ** Reading the log of [process_pdf] *)

Lemma deletions_app (l1 l2 : list Event) :
  deletions (l1 ++ l2) = deletions l1 ++ deletions l2.
Proof. apply omap_app. Qed.

Lemma saves_app (l1 l2 : list Event) : saves (l1 ++ l2) = saves l1 ++ saves l2.
Proof. apply omap_app. Qed.

Lemma renders_app (l1 l2 : list Event) :
  renders (l1 ++ l2) = renders l1 ++ renders l2.
Proof. apply omap_app. Qed.

Lemma deletions_delete_events (dels : list nat) :
  deletions (EvDeletePage <$> dels) = dels.
Proof. induction dels as [|pg dels IH]; [done|]. cbn. by f_equal. Qed.

Lemma saves_delete_events (dels : list nat) : saves (EvDeletePage <$> dels) = [].
Proof. induction dels as [|pg dels IH]; [done|]. by cbn. Qed.

Lemma renders_delete_events (dels : list nat) :
  renders (EvDeletePage <$> dels) = [].
Proof. induction dels as [|pg dels IH]; [done|]. by cbn. Qed.

Lemma step_log_quiet (doc : list Page) i :
  deletions (step_log doc i) = [] ∧ saves (step_log doc i) = [].
Proof.
  unfold step_log. destruct (doc !! (i - 1)) as [a|]; [|done].
  destruct (doc !! i) as [b|]; [|done].
  rewrite regions_match_run. cbn [snd]. by case_decide.
Qed.

(** The scan only rasterises. *)
Lemma scan_log_quiet (doc : list Page) :
  deletions (scan_log doc) = [] ∧ saves (scan_log doc) = [].
Proof.
  unfold scan_log. induction (range 1 (length doc)) as [|i l [IHd IHs]]; [done|].
  cbn [flat_map]. rewrite deletions_app, saves_app, IHd, IHs.
  by destruct (step_log_quiet doc i) as [-> ->].
Qed.

Lemma elem_of_marked (doc : list Page) j : j ∈ marked doc ↔ dup_at doc j.
Proof.
  unfold marked. rewrite list_elem_of_filter, elem_of_seq.
  split; [by intros [? _]|]. intros Hd. split; [done|].
  unfold dup_at in Hd. destruct (doc !! j); [|done].
  destruct (doc !! S j) eqn:Hb; [|done].
  apply lookup_lt_Some in Hb. lia.
Qed.

Lemma closing_quiet (o : option Exn) :
  deletions (match o with None => [EvClose] | Some _ => [] end) = []
  ∧ saves (match o with None => [EvClose] | Some _ => [] end) = []
  ∧ renders (match o with None => [EvClose] | Some _ => [] end) = [].
Proof. by destruct o. Qed.

Lemma process_pdf_outcome (src dst : Path) (doc : list Page) :
  fitz_open src = Some doc →
  (process_pdf src dst).1
  = match save_error src (prune doc) dst with
    | None => Return (length (marked doc))
    | Some e => Raise e
    end.
Proof. intros Hopen. by rewrite (process_pdf_run _ _ _ Hopen). Qed.

Lemma process_pdf_deleted (src dst : Path) (doc : list Page) :
  fitz_open src = Some doc →
  deletions (process_pdf src dst).2 = reverse (marked doc).
Proof.
  intros Hopen. rewrite (process_pdf_run _ _ _ Hopen). cbn [snd].
  change (EvOpen src :: ?l) with ([EvOpen src] ++ l).
  rewrite !deletions_app, deletions_delete_events.
  destruct (scan_log_quiet doc) as [-> _].
  destruct (closing_quiet (save_error src (prune doc) dst)) as (-> & _ & _).
  cbn. by rewrite app_nil_r.
Qed.

Lemma process_pdf_saves (src dst : Path) (doc : list Page) :
  fitz_open src = Some doc →
  saves (process_pdf src dst).2 = [(dst, prune doc)].
Proof.
  intros Hopen. rewrite (process_pdf_run _ _ _ Hopen). cbn [snd].
  change (EvOpen src :: ?l) with ([EvOpen src] ++ l).
  rewrite !saves_app, saves_delete_events.
  destruct (scan_log_quiet doc) as [_ ->].
  by destruct (closing_quiet (save_error src (prune doc) dst)) as (_ & -> & _).
Qed.

(** ** Properties of the pruned sequence *)

Lemma prune_length (doc : list Page) :
  length (prune doc) + length (marked doc) = length doc.
Proof.
  induction doc as [|a [|b rest] IH]; [done|done|].
  rewrite marked_cons, length_app, length_fmap, prune_cons.
  destruct (decide (duplicate_pair a b)); cbn [length] in *; lia.
Qed.

Lemma prune_sublist (doc : list Page) : prune doc `sublist_of` doc.
Proof.
  induction doc as [|a [|b rest] IH]; [done|done|].
  rewrite prune_cons. destruct (decide (duplicate_pair a b)).
  - by apply sublist_cons.
  - by apply sublist_skip.
Qed.

Lemma prune_last (doc : list Page) : last (prune doc) = last doc.
Proof.
  induction doc as [|a [|b rest] IH]; [done|done|].
  rewrite prune_cons. destruct (decide (duplicate_pair a b)).
  - by rewrite IH.
  - change (a :: prune (b :: rest)) with ([a] ++ prune (b :: rest)).
    change (a :: b :: rest) with ([a] ++ b :: rest).
    by rewrite !last_app, IH.
Qed.

Lemma dup_at_iff (doc : list Page) j :
  dup_at doc j ↔
  ∃ a b, doc !! j = Some a ∧ doc !! S j = Some b ∧ duplicate_pair a b.
Proof.
  unfold dup_at. split.
  - destruct (doc !! j) as [a|]; [|done].
    destruct (doc !! S j) as [b|]; [|done]. eauto.
  - by intros (a & b & -> & -> & Hd).
Qed.

Lemma regions_match_true (a b : Page) :
  (regions_match a b).1 = Return true ↔ duplicate_pair a b.
Proof.
  rewrite regions_match_run. cbn [fst]. split.
  - intros [= Hd]. by apply bool_decide_eq_true in Hd.
  - intros Hd. by rewrite bool_decide_eq_true_2.
Qed.

(** ** The claims about the detector *)

(** C1.  For two pages of equal (width, height), [regions_match] returns
    true exactly when the rasterised top regions are byte-for-byte
    identical.  The top region is the clip from y0 to y0 + 0.10 * height
    over the full width, laid out once on the earlier page's rectangle and
    rendered for both pages with the 150 DPI matrix; these two renders are
    the only events, so no other region (the bottom one in particular) is
    consulted.  When the two page rectangles have the same coordinates,
    that clip is the top region of each page on its own rectangle. *)
Theorem regions_match_top_region (a b : Page) :
  same_dims a b →
  let clip := top_region (page_rect a) in
  regions_match a b
  = (Return (bool_decide (pixels clip a = pixels clip b)),
     [EvGetPixmap a dpi_matrix clip; EvGetPixmap b dpi_matrix clip])
  ∧ ((regions_match a b).1 = Return true ↔ pixels clip a = pixels clip b)
  ∧ (page_rect b = page_rect a →
     ((regions_match a b).1 = Return true ↔
      pixels (top_region (page_rect a)) a
      = pixels (top_region (page_rect b)) b)).
Proof.
  intros Hdims clip.
  assert ((regions_match a b).1 = Return true
          ↔ pixels clip a = pixels clip b) as Hiff.
  { rewrite regions_match_true. unfold duplicate_pair. by intuition. }
  split; [|split; [done|]].
  - rewrite regions_match_run. destruct (decide (same_dims a b)); [|done].
    f_equal. f_equal.
    apply bool_decide_ext. unfold duplicate_pair. by intuition.
  - by intros ->.
Qed.

(** C3.  Two pages whose (width, height) differ are never a duplicate
    pair: [regions_match] returns false, and it does so with an empty log,
    that is without rasterising either page. *)
Theorem regions_match_differing_dims (a b : Page) :
  ¬ same_dims a b → regions_match a b = (Return false, []).
Proof.
  intros Hdims. rewrite regions_match_run.
  destruct (decide (same_dims a b)); [done|].
  rewrite bool_decide_eq_false_2; [done|]. by intros [? _].
Qed.

(** ** The claims about [process_pdf] *)

(** C8.  The claim fails on a document with no page.  Such a document
    takes the [n_pages <= 1] branch like a one-page document: nothing is
    compared, nothing is deleted, the destination directory is created
    and [save] is called with the empty page list.  That call raises
    ValueError (a document with zero pages cannot be saved), whatever the
    destination: [process_pdf] ends with the exception, so it returns no
    count, and [doc.close()] is never reached. *)
Theorem process_pdf_empty_document (src dst : Path) :
  fitz_open src = Some [] →
  process_pdf src dst
  = (Raise ValueError,
     [EvOpen src; EvMkdir (parent dst); EvSave dst save_defaults []])
  ∧ (∀ r : nat, (process_pdf src dst).1 ≠ Return r)
  ∧ renders (process_pdf src dst).2 = []
  ∧ deletions (process_pdf src dst).2 = []
  ∧ (EvClose ∉ (process_pdf src dst).2).
Proof.
  intros Hopen.
  assert (process_pdf src dst
          = (Raise ValueError,
             [EvOpen src; EvMkdir (parent dst); EvSave dst save_defaults []]))
    as Hrun.
  { rewrite (process_pdf_run _ _ _ Hopen). unfold save_error.
    case_bool_decide; [done|]. by rewrite bool_decide_eq_true_2. }
  rewrite Hrun. do 4 (split; [done|]). cbn [snd].
  intros Hin. repeat (apply elem_of_cons in Hin as [?|Hin]; [done|]).
  by apply elem_of_nil in Hin.
Qed.

(** C4.  [process_pdf] marks exactly the indices i-1, for i from 1 to
    page_count-1, at which the detector returns true on pages (i-1, i) of
    the original sequence.  Its log is the open, then the whole scan, then
    the deletions, then the save: no deletion happens before the scan is
    over.  The number of deletions is the input page count minus the page
    count of the document handed to [save], and it is the value returned
    when that save goes through. *)
Theorem process_pdf_marks_then_deletes (src dst : Path) (doc : list Page) :
  fitz_open src = Some doc →
  ∃ (dels : list nat) (out : list Page) (tail : list Event),
    process_pdf src dst
    = (match save_error src out dst with
       | None => Return (length dels)
       | Some e => Raise e
       end,
       EvOpen src :: scan_log doc ++ (EvDeletePage <$> dels) ++ tail)
    ∧ deletions (scan_log doc) = []
    ∧ deletions tail = [] ∧ renders tail = [] ∧ saves tail = [(dst, out)]
    ∧ NoDup dels
    ∧ (∀ j, j ∈ dels ↔
         ∃ i a b, 1 ≤ i ≤ length doc - 1 ∧ j = i - 1 ∧
                  doc !! (i - 1) = Some a ∧ doc !! i = Some b ∧
                  (regions_match a b).1 = Return true)
    ∧ length dels = length doc - length out.
Proof.
  intros Hopen.
  exists (reverse (marked doc)), (prune doc).
  assert (∀ j, j ∈ reverse (marked doc) ↔
     ∃ i a b, 1 ≤ i ≤ length doc - 1 ∧ j = i - 1 ∧
              doc !! (i - 1) = Some a ∧ doc !! i = Some b ∧
              (regions_match a b).1 = Return true) as Hmarks.
  { intros j. rewrite elem_of_reverse, elem_of_marked, dup_at_iff. split.
    - intros (a & b & Ha & Hb & Hd). exists (S j), a, b.
      apply lookup_lt_Some in Hb as Hlt.
      replace (S j - 1) with j by lia.
      rewrite regions_match_true.
      split; [lia|]. split; [done|]. by split.
    - intros (i & a & b & Hi & -> & Ha & Hb & Hd). exists a, b.
      replace (S (i - 1)) with i by lia.
      by rewrite <- regions_match_true. }
  assert (NoDup (reverse (marked doc))) as Hnodup.
  { rewrite reverse_Permutation. apply sorted_lt_NoDup, marked_sorted. }
  assert (length (reverse (marked doc)) = length doc - length (prune doc))
    as Hcount.
  { rewrite length_reverse. pose proof (prune_length doc). lia. }
  rewrite (process_pdf_run _ _ _ Hopen).
  exists ([EvMkdir (parent dst);
           EvSave dst (if bool_decide (length doc ≤ 1) then save_defaults
                       else mkSaveOpts 4 true) (prune doc)]
          ++ match save_error src (prune doc) dst with
             | None => [EvClose]
             | Some _ => []
             end).
  destruct (scan_log_quiet doc) as [Hq _].
  rewrite length_reverse in *.
  split; [done|]. split; [done|].
  split; [by destruct (save_error src (prune doc) dst)|].
  split; [by destruct (save_error src (prune doc) dst)|].
  split; [by destruct (save_error src (prune doc) dst)|].
  by repeat split; try apply Hmarks.
Qed.

(** C5.  The deletion list is [sorted(set(marked), reverse=True)] of the
    indices marked on the original document, so it is settled by the scan
    alone; it is strictly descending (hence free of duplicates); the
    deletions form one block of the log, after every rasterisation; and
    each index handed to [delete_page] is below the page count the
    document has at that moment, so that no call raises: the run goes on
    to create the directory and to call [save], and the only exception it
    can end with is the one of that [save]. *)
Theorem process_pdf_deletions_valid (src dst : Path) (doc : list Page) :
  fitz_open src = Some doc →
  ∃ (dels : list nat) (out : list Page) (tail : list Event),
    process_pdf src dst
    = (match save_error src out dst with
       | None => Return (length dels)
       | Some e => Raise e
       end,
       EvOpen src :: scan_log doc ++ (EvDeletePage <$> dels)
       ++ EvMkdir (parent dst) :: tail)
    ∧ deletions (scan_log doc) = []
    ∧ deletions tail = [] ∧ renders tail = []
    ∧ saves tail = [(dst, out)]
    ∧ dels = sorted_set_reverse (marked doc)
    ∧ StronglySorted (flip lt) dels
    ∧ deletions_valid (length doc) dels.
Proof.
  intros Hopen.
  pose proof (sorted_set_reverse_ascending _ (marked_sorted doc)) as Hdels.
  destruct (delete_loop (reverse (marked doc)) doc) as [_ Hvalid].
  { apply reverse_sorted, marked_sorted. }
  { apply Forall_forall. intros j Hj. rewrite elem_of_reverse in Hj.
    apply marked_bound in Hj. lia. }
  destruct (scan_log_quiet doc) as [Hq _].
  exists (reverse (marked doc)), (prune doc).
  exists (EvSave dst (if bool_decide (length doc ≤ 1) then save_defaults
                      else mkSaveOpts 4 true) (prune doc)
          :: match save_error src (prune doc) dst with
             | None => [EvClose]
             | Some _ => []
             end).
  rewrite (process_pdf_run _ _ _ Hopen), length_reverse.
  split; [done|]. split; [done|].
  split; [by destruct (save_error src (prune doc) dst)|].
  split; [by destruct (save_error src (prune doc) dst)|].
  split; [by destruct (save_error src (prune doc) dst)|].
  split; [done|]. split; [|done].
  apply reverse_sorted, marked_sorted.
Qed.

(** C6.  The page sequence that [process_pdf] saves is a subsequence of the
    input's: kept pages keep their relative order, and the output never
    has more pages than the input. *)
Theorem process_pdf_subsequence (src dst : Path) (doc : list Page) :
  fitz_open src = Some doc →
  ∃ out : list Page,
    saves (process_pdf src dst).2 = [(dst, out)]
    ∧ out `sublist_of` doc
    ∧ length out ≤ length doc.
Proof.
  intros Hopen. exists (prune doc).
  split; [by apply process_pdf_saves|].
  split; [apply prune_sublist|]. apply sublist_length, prune_sublist.
Qed.

(** C10.  On a document with at least one page, every index that
    [process_pdf] deletes is at most page_count - 2, so the final page is
    never deleted: the saved document is not empty and ends with the
    input's last page. *)
Theorem process_pdf_keeps_last_page (src dst : Path) (doc : list Page) :
  fitz_open src = Some doc →
  1 ≤ length doc →
  Forall (λ pg, pg + 2 ≤ length doc) (deletions (process_pdf src dst).2)
  ∧ (∃ out : list Page,
        saves (process_pdf src dst).2 = [(dst, out)]
        ∧ 1 ≤ length out
        ∧ last out = last doc).
Proof.
  intros Hopen Hn. split.
  - rewrite (process_pdf_deleted _ _ _ Hopen). apply Forall_forall.
    intros j Hj. rewrite elem_of_reverse in Hj. apply marked_bound in Hj. lia.
  - exists (prune doc). split; [by apply process_pdf_saves|].
    pose proof (prune_last doc) as Hlast. split; [|done].
    destruct (prune doc) as [|p out]; [|cbn [length]; lia].
    destruct doc as [|a doc] using rev_ind; [cbn [length] in Hn; lia|].
    by rewrite last_snoc in Hlast.
Qed.

Lemma sorted_lt_ext (l1 l2 : list nat) :
  StronglySorted lt l1 → StronglySorted lt l2 →
  (∀ x, x ∈ l1 ↔ x ∈ l2) → l1 = l2.
Proof.
  intros H1 H2 Hext.
  assert (AntiSymm eq lt) as Hanti by (intros x y ? ?; lia).
  apply (StronglySorted_unique lt); [done..|].
  apply NoDup_Permutation; [by apply sorted_lt_NoDup..|done].
Qed.

Lemma filter_sorted (P : nat → Prop) `{∀ j, Decision (P j)} (l : list nat) :
  StronglySorted lt l → StronglySorted lt (filter P l).
Proof.
  induction 1 as [|x l Hl IH Hx]; [constructor|].
  rewrite filter_cons. case_decide; [|done]. constructor; [done|].
  apply Forall_forall. intros y Hy. apply list_elem_of_filter in Hy as [_ Hy].
  rewrite Forall_forall in Hx. by apply Hx.
Qed.

Lemma filter_reverse_nat (P : nat → Prop) `{∀ j, Decision (P j)}
    (l : list nat) :
  filter P (reverse l) = reverse (filter P l).
Proof.
  induction l as [|x l IH]; [done|].
  rewrite reverse_cons, filter_app, IH, filter_cons.
  cbn [filter list_filter]. case_decide; [|by rewrite app_nil_r].
  by rewrite reverse_cons.
Qed.

(** A page that does not duplicate its successor survives. *)
Lemma prune_keeps (doc : list Page) : ∀ j p,
  doc !! j = Some p → ¬ dup_at doc j → p ∈ prune doc.
Proof.
  induction doc as [|a rest IH]; intros j p Hj Hd; [done|].
  destruct j as [|j].
  - injection Hj as ->. destruct rest as [|b rest]; [set_solver|].
    rewrite prune_cons. unfold dup_at in Hd. cbn in Hd.
    rewrite decide_False by done. set_solver.
  - cbn in Hj. destruct rest as [|b rest]; [done|].
    assert (p ∈ prune (b :: rest)) as Hin by (by apply (IH j)).
    rewrite prune_cons. case_decide; set_solver.
Qed.

(** The pruned sequence, read through the indices of the input. *)
Lemma prune_by_index (doc : list Page) :
  prune doc
  = omap (λ i, doc !! i)
         (filter (λ i, ¬ dup_at doc i) (seq 0 (length doc))).
Proof.
  induction doc as [|a rest IH]; [done|].
  cbn [length seq]. rewrite <- fmap_S_seq.
  rewrite filter_cons.
  rewrite (filter_fmap_S _ (λ i, ¬ dup_at rest i)) by done.
  assert (omap (λ i, (a :: rest) !! i)
               (S <$> filter (λ i, ¬ dup_at rest i) (seq 0 (length rest)))
          = prune rest) as Htail.
  { rewrite IH. generalize (filter (λ i, ¬ dup_at rest i)
                              (seq 0 (length rest))).
    intros l. induction l as [|i l IHl]; [done|].
    rewrite fmap_cons. cbn [omap list_omap lookup list_lookup].
    fold (omap (λ i, (a :: rest) !! i) (S <$> l)).
    fold (omap (λ i, rest !! i) l). by rewrite IHl. }
  destruct rest as [|b rest].
  - rewrite decide_True; [reflexivity|]. unfold dup_at. cbn. by intros [].
  - rewrite prune_cons. unfold dup_at at 1. cbn [lookup list_lookup].
    destruct (decide (duplicate_pair a b)) as [Hd|Hd].
    + rewrite decide_False by (by intros Hn; apply Hn). by rewrite Htail.
    + rewrite decide_True by done.
      cbn [omap list_omap lookup list_lookup]. f_equal. by rewrite <- Htail.
Qed.

Lemma prune_survivors (doc : list Page) :
  prune doc = survivors doc (seq 0 (length doc)).
Proof. apply prune_by_index. Qed.

Lemma survivors_app (doc : list Page) (l1 l2 : list nat) :
  survivors doc (l1 ++ l2) = survivors doc l1 ++ survivors doc l2.
Proof. unfold survivors. by rewrite filter_app, omap_app. Qed.

Lemma filter_all (P : nat → Prop) `{∀ j, Decision (P j)} (l : list nat) :
  (∀ j, j ∈ l → P j) → filter P l = l.
Proof.
  induction l as [|x l IH]; intros Hall; [done|].
  rewrite filter_cons, decide_True by (apply Hall; left).
  f_equal. apply IH. intros j Hj. apply Hall. by right.
Qed.

Lemma filter_split_length (P : nat → Prop) `{∀ j, Decision (P j)}
    (l : list nat) :
  length (filter P l) + length (filter (λ j, ¬ P j) l) = length l.
Proof.
  induction l as [|x l IH]; [done|].
  rewrite !filter_cons. destruct (decide (P x)).
  - rewrite decide_False by tauto. cbn [length]. lia.
  - rewrite decide_True by done. cbn [length]. lia.
Qed.

(** Consecutive pages, read by index. *)
Lemma omap_lookup_seq (doc : list Page) (m : nat) : ∀ a,
  a + m ≤ length doc →
  omap (λ i, doc !! i) (seq a m) = take m (drop a doc).
Proof.
  induction m as [|m IH]; intros a Ha; [done|].
  destruct (lookup_lt_is_Some_2 doc a) as [x Hx]; [lia|].
  cbn [seq omap list_omap]. rewrite Hx.
  rewrite (drop_S _ _ _ Hx). cbn [take]. f_equal.
  apply IH. lia.
Qed.

(** In a chain that starts at [s] and has [k] pages, the last page alone
    survives. *)
Lemma survivors_chain (doc : list Page) (s k : nat) (p : Page) :
  1 ≤ k →
  (∀ j, s ≤ j → S j < s + k → dup_at doc j) →
  ¬ dup_at doc (s + k - 1) →
  doc !! (s + k - 1) = Some p →
  survivors doc (seq s k) = [p].
Proof.
  intros Hk Hchain Hend Hp. unfold survivors.
  assert (filter (λ i, ¬ dup_at doc i) (seq s k) = [s + k - 1]) as ->.
  { apply sorted_lt_ext.
    - apply filter_sorted, seq_sorted.
    - repeat constructor.
    - intros j. rewrite list_elem_of_filter, elem_of_seq, list_elem_of_singleton.
      split.
      + intros [Hd Hj]. destruct (decide (j = s + k - 1)); [done|].
        exfalso. apply Hd, Hchain; lia.
      + intros ->. split; [done|lia]. }
  cbn. by rewrite Hp.
Qed.

(** C2.  Take a chain of k consecutive pages, from index s on, in which
    every page is a duplicate of the next (equal dimensions and identical
    top regions), the last page of the chain not being a duplicate of the
    page after it, if there is one.  Then among the indices of the chain
    [process_pdf] deletes exactly the k-1 earlier ones, highest first, and
    not the last one; and the page before the chain is not deleted either
    when it is not a duplicate of the chain's first page.  Every pair was
    judged on the original sequence.  The document handed to [save] is,
    in this order: the surviving pages from before the chain, the last
    page of the chain and nothing else of the chain, the surviving pages
    from after the chain.  It is shorter than the input by k-1 pages plus
    the number of deletions outside the chain; when the document has no
    duplicate pair outside the chain it is the input without the pages
    s .. s+k-2. *)
Theorem process_pdf_chain (src dst : Path) (doc : list Page) (s k : nat) :
  fitz_open src = Some doc →
  1 ≤ k →
  s + k ≤ length doc →
  (∀ j, s ≤ j → S j < s + k → dup_at doc j) →
  ¬ dup_at doc (s + k - 1) →
  let dels := deletions (process_pdf src dst).2 in
  filter (λ j, s ≤ j < s + k) dels = reverse (seq s (k - 1))
  ∧ length (filter (λ j, s ≤ j < s + k) dels) = k - 1
  ∧ (s + k - 1 ∉ dels)
  ∧ ((∀ j, S j = s → ¬ dup_at doc j) → ∀ j, S j = s → j ∉ dels)
  ∧ (∃ (out : list Page) (last_page : Page),
        saves (process_pdf src dst).2 = [(dst, out)]
        ∧ doc !! (s + k - 1) = Some last_page
        ∧ (∀ p, doc !! (s + k - 1) = Some p → p ∈ out)
        ∧ survivors doc (seq s k) = [last_page]
        ∧ out = survivors doc (seq 0 s) ++ [last_page]
                ++ survivors doc (seq (s + k) (length doc - (s + k)))
        ∧ length out + (k - 1)
          + length (filter (λ j, ¬ (s ≤ j < s + k)) dels) = length doc
        ∧ ((∀ j, dup_at doc j → s ≤ j < s + k) →
           out = take s doc ++ drop (s + k - 1) doc
           ∧ length out + (k - 1) = length doc)).
Proof.
  intros Hopen Hk Hlen Hchain Hend dels.
  assert (dels = reverse (marked doc)) as ->.
  { by apply process_pdf_deleted. }
  assert (filter (λ j, s ≤ j < s + k) (reverse (marked doc))
          = reverse (seq s (k - 1))) as Hfilter.
  { rewrite filter_reverse_nat. f_equal. apply sorted_lt_ext.
    - apply filter_sorted, marked_sorted.
    - apply seq_sorted.
    - intros j. rewrite list_elem_of_filter, elem_of_marked, elem_of_seq.
      split.
      + intros [Hj Hd]. split; [lia|].
        destruct (decide (j = s + k - 1)) as [->|]; [done|lia].
      + intros Hj. split; [lia|]. apply Hchain; lia. }
  split; [done|]. split.
  { by rewrite Hfilter, length_reverse, length_seq. }
  split.
  { by rewrite elem_of_reverse, elem_of_marked. }
  split.
  { intros Hbefore j Hj. rewrite elem_of_reverse, elem_of_marked.
    by apply Hbefore. }
  destruct (lookup_lt_is_Some_2 doc (s + k - 1)) as [last_page Hlast]; [lia|].
  pose proof (survivors_chain doc s k last_page Hk Hchain Hend Hlast) as Hmid.
  assert (prune doc
          = survivors doc (seq 0 s) ++ [last_page]
            ++ survivors doc (seq (s + k) (length doc - (s + k)))) as Hout.
  { rewrite prune_survivors.
    replace (length doc) with (s + (k + (length doc - (s + k)))) at 1 by lia.
    rewrite !seq_app. change (0 + s) with s.
    by rewrite !survivors_app, Hmid. }
  exists (prune doc), last_page.
  split; [by apply process_pdf_saves|]. split; [done|].
  split.
  { intros p Hp. by apply (prune_keeps doc (s + k - 1)). }
  split; [done|]. split; [done|].
  split.
  { pose proof (prune_length doc) as Hpl.
    pose proof (filter_split_length (λ j, s ≤ j < s + k)
                  (reverse (marked doc))) as Hsplit.
    rewrite Hfilter, !length_reverse, length_seq in Hsplit. lia. }
  intros Honly. assert (prune doc = take s doc ++ drop (s + k - 1) doc) as ->.
  { rewrite Hout. unfold survivors.
    rewrite !filter_all.
    - rewrite !omap_lookup_seq by lia.
      rewrite drop_0. f_equal.
      rewrite (drop_S _ _ _ Hlast).
      replace (S (s + k - 1)) with (s + k) by lia. cbn [app]. f_equal.
      apply take_ge. rewrite length_drop. lia.
    - intros j Hj Hd. apply elem_of_seq in Hj. apply Honly in Hd. lia.
    - intros j Hj Hd. apply elem_of_seq in Hj. apply Honly in Hd. lia. }
  split; [done|].
  rewrite length_app, length_take, length_drop. lia.
Qed.

(** ** Idempotence *)

Lemma no_regenerated_tail (a : Page) (rest : list Page) :
  no_regenerated (a :: rest) → no_regenerated rest.
Proof.
  intros Hdoc i j x y Hij Hi Hj Hkept Hgone Hkept'.
  apply (Hdoc (S i) (S j) x y); [lia|done|done|done| |done].
  intros [|m] Hm; [lia|]. apply (Hgone m). lia.
Qed.

(** The first page of the pruned sequence is the first kept page of the
    document: it is reached through dropped pages only. *)
Lemma prune_head (doc : list Page) :
  doc ≠ [] →
  ∃ t c tl, doc !! t = Some c ∧ prune doc = c :: tl
            ∧ (∀ m, m < t → dup_at doc m) ∧ ¬ dup_at doc t.
Proof.
  induction doc as [|a [|b rest] IH]; intros Hne; [done| |].
  - exists 0, a, []. split; [done|]. split; [done|].
    split; [intros m Hm; lia|]. by intros Hd.
  - rewrite prune_cons. destruct (decide (duplicate_pair a b)) as [Hd|Hd].
    + destruct IH as (t & c & tl & Ht & Hp & Hgone & Hkept); [done|].
      exists (S t), c, tl. split; [done|]. split; [done|].
      split; [|done].
      intros [|m] Hm; [done|]. apply (Hgone m). lia.
    + exists 0, a, (prune (b :: rest)).
      split; [done|]. split; [done|]. split; [intros m Hm; lia|done].
Qed.

Lemma prune_no_duplicates (doc : list Page) :
  no_regenerated doc → ∀ j, ¬ dup_at (prune doc) j.
Proof.
  induction doc as [|a [|b rest] IH]; intros Hdoc j.
  - intros Hd. unfold dup_at in Hd. by cbn in Hd.
  - intros Hd. unfold dup_at in Hd. by destruct j as [|[|j]]; cbn in Hd.
  - specialize (IH (no_regenerated_tail _ _ Hdoc)).
    rewrite prune_cons. destruct (decide (duplicate_pair a b)) as [Hd|Hd].
    { apply IH. }
    destruct j as [|j]; [|apply (IH j)].
    destruct (prune_head (b :: rest))
      as (t & c & tl & Ht & Hp & Hgone & Hkept); [done|].
    rewrite Hp. unfold dup_at. cbn [lookup list_lookup].
    destruct t as [|t].
    + by injection Ht as ->.
    + apply (Hdoc 0 (S (S t)) a c); [lia|done|done|done| |done].
      intros [|m] Hm; [lia|]. apply (Hgone m). lia.
Qed.

Lemma marked_nil (doc : list Page) : (∀ j, ¬ dup_at doc j) → marked doc = [].
Proof.
  intros Hnone. destruct (marked doc) as [|j l] eqn:Hm; [done|].
  exfalso. apply (Hnone j), elem_of_marked. rewrite Hm. by left.
Qed.

(** Each step of a run of duplicate pairs links its ends, when the
    duplicate relation is transitive on the pages of the document. *)
Lemma dup_chain (doc : list Page) :
  (∀ x y z, x ∈ doc → y ∈ doc → z ∈ doc →
     duplicate_pair x y → duplicate_pair y z → duplicate_pair x z) →
  ∀ d i x y, doc !! i = Some x → doc !! (i + S d) = Some y →
    (∀ m, i ≤ m < i + S d → dup_at doc m) → duplicate_pair x y.
Proof.
  intros Htrans. induction d as [|d IH]; intros i x y Hx Hy Hrun.
  - specialize (Hrun i). unfold dup_at in Hrun.
    replace (i + 1) with (S i) in Hy by lia. rewrite Hx, Hy in Hrun.
    apply Hrun. lia.
  - destruct (lookup_lt_is_Some_2 doc (S i)) as [z Hz].
    { apply lookup_lt_Some in Hy. lia. }
    apply (Htrans x z y); [by eapply list_elem_of_lookup_2..| |].
    + specialize (Hrun i). unfold dup_at in Hrun. rewrite Hx, Hz in Hrun.
      apply Hrun. lia.
    + apply (IH (S i)); [done| |].
      * by replace (S i + S d) with (i + S (S d)) by lia.
      * intros m Hm. apply Hrun. lia.
Qed.

(** With exact pixel equality on a common clip the duplicate relation is
    in practice an equivalence; whenever it is symmetric and transitive on
    the pages of a document, removal regenerates no duplicate. *)
Lemma equivalence_no_regenerated (doc : list Page) :
  (∀ x y, x ∈ doc → y ∈ doc → duplicate_pair x y → duplicate_pair y x) →
  (∀ x y z, x ∈ doc → y ∈ doc → z ∈ doc →
     duplicate_pair x y → duplicate_pair y z → duplicate_pair x z) →
  no_regenerated doc.
Proof.
  intros Hsym Htrans i j a b Hij Ha Hb Hkept Hgone _ Hab.
  destruct (lookup_lt_is_Some_2 doc (S i)) as [c Hc].
  { apply lookup_lt_Some in Hb. lia. }
  assert (duplicate_pair c b) as Hcb.
  { apply (dup_chain doc Htrans (j - S (S i)) (S i)); [done| |].
    - by replace (S i + S (j - S (S i))) with j by lia.
    - intros m Hm. apply Hgone. lia. }
  apply Hkept. unfold dup_at. rewrite Ha, Hc.
  assert (a ∈ doc ∧ b ∈ doc ∧ c ∈ doc) as (Hina & Hinb & Hinc).
  { split_and!; by eapply list_elem_of_lookup_2. }
  apply (Htrans a b c); [done..|]. by apply Hsym.
Qed.

(** *** Python's [==] on floats is a partial equivalence *)

Lemma SFeqb_same (f1 f2 : spec_float) : SFeqb f1 f2 = true → sf_same f1 f2.
Proof.
  unfold SFeqb.
  destruct f1 as [s1|s1| |s1 m1 e1], f2 as [s2|s2| |s2 m2 e2]; cbn;
    try done; try (by destruct s1); try (by destruct s2);
    try (by destruct s1, s2).
  fold (Pos.compare m1 m2).
  destruct s1, s2; try done;
    destruct (Z.compare_spec e1 e2) as [->| |]; try done;
    destruct (Pos.compare_spec m1 m2) as [->| |]; done.
Qed.

Lemma same_SFeqb (f1 f2 : spec_float) : sf_same f1 f2 → SFeqb f1 f2 = true.
Proof.
  unfold SFeqb.
  destruct f1 as [s1|s1| |s1 m1 e1], f2 as [s2|s2| |s2 m2 e2]; cbn;
    try done.
  - intros ->. by destruct s2.
  - intros (-> & -> & ->). fold (Pos.compare m2 m2).
    rewrite Z.compare_refl, Pos.compare_refl. by destruct s2.
Qed.

Lemma float_eqb_sym (x y : float) :
  PrimFloat.eqb x y = true → PrimFloat.eqb y x = true.
Proof.
  rewrite !FloatAxioms.eqb_spec. intros Hxy%SFeqb_same. apply same_SFeqb.
  destruct (Prim2SF x), (Prim2SF y); cbn in *; try done.
  by destruct Hxy as (-> & -> & ->).
Qed.

Lemma float_eqb_trans (x y z : float) :
  PrimFloat.eqb x y = true → PrimFloat.eqb y z = true →
  PrimFloat.eqb x z = true.
Proof.
  rewrite !FloatAxioms.eqb_spec. intros Hxy%SFeqb_same Hyz%SFeqb_same.
  apply same_SFeqb.
  destruct (Prim2SF x), (Prim2SF y), (Prim2SF z); cbn in *; try done.
  - congruence.
  - destruct Hxy as (-> & -> & ->). by destruct Hyz as (-> & -> & ->).
Qed.

Lemma same_dims_sym (a b : Page) : same_dims a b → same_dims b a.
Proof. intros [Hw Hh]. split; by apply float_eqb_sym. Qed.

Lemma same_dims_trans (a b c : Page) :
  same_dims a b → same_dims b c → same_dims a c.
Proof. intros [Hw Hh] [Hw' Hh']. split; by eapply float_eqb_trans. Qed.

(** When pages of equal dimensions have the same top region (as they do
    when the library places every page rectangle at the same origin), the
    duplicate relation is symmetric and transitive, so that removal never
    regenerates a duplicate. *)
Lemma common_region_no_regenerated (doc : list Page) :
  (∀ x y, x ∈ doc → y ∈ doc → same_dims x y →
     top_region (page_rect x) = top_region (page_rect y)) →
  no_regenerated doc.
Proof.
  intros Hregion. apply equivalence_no_regenerated.
  - intros x y Hx Hy [Hdims Hpx]. split; [by apply same_dims_sym|].
    by rewrite <- (Hregion x y).
  - intros x y z Hx Hy Hz [Hxy Hpx] [Hyz Hpx']. split.
    + by eapply same_dims_trans.
    + rewrite Hpx. by rewrite (Hregion x y).
Qed.

(** C7.  Let [out] be the document saved by a run of [process_pdf], and
    assume that removal regenerated no duplicate (two pages brought
    together by the removal of the pages between them are not a duplicate
    pair).  Then [out] has no adjacent pair satisfying the duplicate
    criterion, and a second run on it deletes nothing, hands it as it is
    to [save] and, that save going through, returns 0. *)
Theorem process_pdf_idempotent
    (src dst src2 dst2 : Path) (doc out : list Page) :
  fitz_open src = Some doc →
  saves (process_pdf src dst).2 = [(dst, out)] →
  fitz_open src2 = Some out →
  no_regenerated doc →
  (∀ j, ¬ dup_at out j)
  ∧ (process_pdf src2 dst2).1
    = match save_error src2 out dst2 with
      | None => Return 0
      | Some e => Raise e
      end
  ∧ deletions (process_pdf src2 dst2).2 = []
  ∧ saves (process_pdf src2 dst2).2 = [(dst2, out)].
Proof.
  intros Hopen Hsaved Hopen2 Hdoc.
  rewrite (process_pdf_saves _ _ _ Hopen) in Hsaved.
  injection Hsaved as <-.
  pose proof (prune_no_duplicates doc Hdoc) as Hnone.
  pose proof (marked_nil _ Hnone) as Hmarked.
  split; [done|].
  rewrite (process_pdf_outcome _ _ _ Hopen2).
  rewrite (process_pdf_deleted _ _ _ Hopen2).
  rewrite (process_pdf_saves _ _ _ Hopen2), Hmarked.
  assert (prune (prune doc) = prune doc) as ->.
  { by rewrite <- delete_marked_prune, Hmarked. }
  done.
Qed.

End Proofs.


(** ** The claim about [main] *)

Section MainProofs.
Context {fitz : Fitz} {os : OS}.

(** C9.  When the source directory does not exist, [main] prints the
    diagnostic and leaves through [sys.exit(1)]: that print is the whole
    log, so no document is opened and nothing is created, saved or copied
    in the destination tree. *)
Theorem main_missing_source (src dst : string) :
  path_exists (path_resolve src) = false →
  main src dst
  = (SysExit 1,
     [EvPrint ("Source directory not found: "
               +:+ str_abs (path_resolve src) +:+ nl)])
  ∧ exit_status (main src dst).1 = 1%Z
  ∧ opens (main src dst).2 = []
  ∧ writes (main src dst).2 = [].
Proof.
  intros Hmissing.
  assert (main src dst
          = (SysExit 1,
             [EvPrint ("Source directory not found: "
                       +:+ str_abs (path_resolve src) +:+ nl)])) as Hrun.
  { unfold main. rewrite Hmissing. cbn [negb]. unfold print, sys_exit.
    by rewrite bind_tell. }
  by rewrite Hrun.
Qed.

End MainProofs.

(** * The theorems on the test double *)

Ltac by_evaluation := apply (bool_decide_unpack _); vm_compute; exact I.

Lemma deck_no_regenerated : no_regenerated Fake.deck.
Proof.
  intros i j a b Hij Ha Hb Hkept Hgone _.
  assert (j < 6) as Hj by (apply lookup_lt_Some in Hb; exact Hb).
  destruct i as [|[|[|[|i]]]]; try lia;
    destruct j as [|[|[|[|[|[|j]]]]]]; try lia;
    injection Ha as <-; injection Hb as <-;
    first [ by_evaluation | exfalso; apply Hkept; by_evaluation ].
Qed.

Lemma regions_match_top_region_witness :
  same_dims (fitz:=Fake.fitz) Fake.intro_step Fake.intro_full
  ∧ (let clip := top_region (Fake.pg_rect Fake.intro_step) in
     regions_match (fitz:=Fake.fitz) Fake.intro_step Fake.intro_full
     = (Return (bool_decide
                  (pixels (fitz:=Fake.fitz) clip Fake.intro_step
                   = pixels (fitz:=Fake.fitz) clip Fake.intro_full)),
        [EvGetPixmap Fake.intro_step dpi_matrix clip;
         EvGetPixmap Fake.intro_full dpi_matrix clip])
     ∧ ((regions_match (fitz:=Fake.fitz) Fake.intro_step Fake.intro_full).1
        = Return true
        ↔ pixels (fitz:=Fake.fitz) clip Fake.intro_step
          = pixels (fitz:=Fake.fitz) clip Fake.intro_full)
     ∧ (Fake.pg_rect Fake.intro_full = Fake.pg_rect Fake.intro_step →
        ((regions_match (fitz:=Fake.fitz) Fake.intro_step Fake.intro_full).1
         = Return true
         ↔ pixels (fitz:=Fake.fitz)
             (top_region (Fake.pg_rect Fake.intro_step)) Fake.intro_step
           = pixels (fitz:=Fake.fitz)
               (top_region (Fake.pg_rect Fake.intro_full)) Fake.intro_full))).
Proof.
  split; [by_evaluation|].
  apply (regions_match_top_region (fitz:=Fake.fitz)
           Fake.intro_step Fake.intro_full).
  by_evaluation.
Defined.

Lemma regions_match_differing_dims_witness :
  ¬ same_dims (fitz:=Fake.fitz) Fake.results Fake.results_scan
  ∧ regions_match (fitz:=Fake.fitz) Fake.results Fake.results_scan
    = (Return false, []).
Proof.
  split; [by_evaluation|].
  apply (regions_match_differing_dims (fitz:=Fake.fitz)
           Fake.results Fake.results_scan).
  by_evaluation.
Defined.

Lemma process_pdf_empty_document_witness :
  fitz_open Fake.blank_pdf = Some []
  ∧ process_pdf Fake.blank_pdf Fake.blank_out
    = (Raise ValueError,
       [EvOpen Fake.blank_pdf; EvMkdir (parent Fake.blank_out);
        EvSave Fake.blank_out save_defaults []])
  ∧ (∀ r : nat, (process_pdf Fake.blank_pdf Fake.blank_out).1 ≠ Return r)
  ∧ renders (process_pdf Fake.blank_pdf Fake.blank_out).2 = []
  ∧ deletions (process_pdf Fake.blank_pdf Fake.blank_out).2 = []
  ∧ (EvClose ∉ (process_pdf Fake.blank_pdf Fake.blank_out).2).
Proof.
  split; [reflexivity|].
  apply (process_pdf_empty_document (fitz:=Fake.fitz)
           Fake.blank_pdf Fake.blank_out).
  reflexivity.
Defined.

Lemma process_pdf_marks_then_deletes_witness :
  fitz_open Fake.deck_pdf = Some Fake.deck
  ∧ ∃ (dels : list nat) (out : list Page) (tail : list Event),
      process_pdf Fake.deck_pdf Fake.deck_out
      = (match save_error Fake.deck_pdf out Fake.deck_out with
         | None => Return (length dels)
         | Some e => Raise e
         end,
         EvOpen Fake.deck_pdf :: scan_log Fake.deck
         ++ (EvDeletePage <$> dels) ++ tail)
      ∧ deletions (scan_log Fake.deck) = []
      ∧ deletions tail = [] ∧ renders tail = []
      ∧ saves tail = [(Fake.deck_out, out)]
      ∧ NoDup dels
      ∧ (∀ j, j ∈ dels ↔
           ∃ i a b, 1 ≤ i ≤ length Fake.deck - 1 ∧ j = i - 1 ∧
                    Fake.deck !! (i - 1) = Some a ∧ Fake.deck !! i = Some b ∧
                    (regions_match a b).1 = Return true)
      ∧ length dels = length Fake.deck - length out.
Proof.
  split; [reflexivity|].
  apply (process_pdf_marks_then_deletes (fitz:=Fake.fitz) Fake.deck_pdf Fake.deck_out Fake.deck).
  reflexivity.
Defined.

Lemma process_pdf_deletions_valid_witness :
  fitz_open Fake.deck_pdf = Some Fake.deck
  ∧ ∃ (dels : list nat) (out : list Page) (tail : list Event),
      process_pdf Fake.deck_pdf Fake.deck_out
      = (match save_error Fake.deck_pdf out Fake.deck_out with
         | None => Return (length dels)
         | Some e => Raise e
         end,
         EvOpen Fake.deck_pdf :: scan_log Fake.deck
         ++ (EvDeletePage <$> dels)
         ++ EvMkdir (parent Fake.deck_out) :: tail)
      ∧ deletions (scan_log Fake.deck) = []
      ∧ deletions tail = [] ∧ renders tail = []
      ∧ saves tail = [(Fake.deck_out, out)]
      ∧ dels = sorted_set_reverse (marked Fake.deck)
      ∧ StronglySorted (flip lt) dels
      ∧ deletions_valid (length Fake.deck) dels.
Proof.
  split; [reflexivity|].
  apply (process_pdf_deletions_valid (fitz:=Fake.fitz) Fake.deck_pdf Fake.deck_out Fake.deck).
  reflexivity.
Defined.

Lemma process_pdf_subsequence_witness :
  fitz_open Fake.deck_pdf = Some Fake.deck
  ∧ ∃ out : list Page,
      saves (process_pdf Fake.deck_pdf Fake.deck_out).2
      = [(Fake.deck_out, out)]
      ∧ out `sublist_of` Fake.deck
      ∧ length out ≤ length Fake.deck.
Proof.
  split; [reflexivity|].
  apply (process_pdf_subsequence (fitz:=Fake.fitz) Fake.deck_pdf Fake.deck_out Fake.deck).
  reflexivity.
Defined.

Lemma process_pdf_keeps_last_page_witness :
  fitz_open Fake.deck_pdf = Some Fake.deck
  ∧ 1 ≤ length Fake.deck
  ∧ Forall (λ pg, pg + 2 ≤ length Fake.deck)
      (deletions (process_pdf Fake.deck_pdf Fake.deck_out).2)
  ∧ (∃ out : list Page,
        saves (process_pdf Fake.deck_pdf Fake.deck_out).2
        = [(Fake.deck_out, out)]
        ∧ 1 ≤ length out
        ∧ last out = last Fake.deck).
Proof.
  split; [reflexivity|]. split; [vm_compute; lia|].
  apply (process_pdf_keeps_last_page (fitz:=Fake.fitz) Fake.deck_pdf Fake.deck_out Fake.deck).
  - reflexivity.
  - vm_compute; lia.
Defined.

Lemma deck_chain j : 2 ≤ j → S j < 2 + 3 → dup_at Fake.deck j.
Proof.
  intros Hlo Hhi.
  destruct j as [|[|[|[|j]]]]; try lia; by_evaluation.
Qed.

Lemma process_pdf_chain_witness :
  fitz_open Fake.deck_pdf = Some Fake.deck
  ∧ 1 ≤ 3
  ∧ 2 + 3 ≤ length Fake.deck
  ∧ (∀ j, 2 ≤ j → S j < 2 + 3 → dup_at Fake.deck j)
  ∧ ¬ dup_at Fake.deck (2 + 3 - 1)
  ∧ (let dels := deletions (process_pdf Fake.deck_pdf Fake.deck_out).2 in
     filter (λ j, 2 ≤ j < 2 + 3) dels = reverse (seq 2 (3 - 1))
     ∧ length (filter (λ j, 2 ≤ j < 2 + 3) dels) = 3 - 1
     ∧ (2 + 3 - 1 ∉ dels)
     ∧ ((∀ j, S j = 2 → ¬ dup_at Fake.deck j) → ∀ j, S j = 2 → j ∉ dels)
     ∧ (∃ (out : list Page) (last_page : Page),
           saves (process_pdf Fake.deck_pdf Fake.deck_out).2
           = [(Fake.deck_out, out)]
           ∧ Fake.deck !! (2 + 3 - 1) = Some last_page
           ∧ (∀ p, Fake.deck !! (2 + 3 - 1) = Some p → p ∈ out)
           ∧ survivors Fake.deck (seq 2 3) = [last_page]
           ∧ out = survivors Fake.deck (seq 0 2) ++ [last_page]
                   ++ survivors Fake.deck
                        (seq (2 + 3) (length Fake.deck - (2 + 3)))
           ∧ length out + (3 - 1)
             + length (filter (λ j, ¬ (2 ≤ j < 2 + 3)) dels)
             = length Fake.deck
           ∧ ((∀ j, dup_at Fake.deck j → 2 ≤ j < 2 + 3) →
              out = take 2 Fake.deck ++ drop (2 + 3 - 1) Fake.deck
              ∧ length out + (3 - 1) = length Fake.deck))).
Proof.
  split; [reflexivity|]. split; [lia|]. split; [vm_compute; lia|].
  split; [exact deck_chain|]. split; [by_evaluation|].
  apply (process_pdf_chain (fitz:=Fake.fitz)
           Fake.deck_pdf Fake.deck_out Fake.deck 2 3).
  - reflexivity.
  - lia.
  - vm_compute; lia.
  - exact deck_chain.
  - by_evaluation.
Defined.

Lemma process_pdf_idempotent_witness :
  fitz_open Fake.deck_pdf = Some Fake.deck
  ∧ saves (process_pdf Fake.deck_pdf Fake.deck_out).2
    = [(Fake.deck_out, Fake.deck_pruned)]
  ∧ fitz_open Fake.deck_out = Some Fake.deck_pruned
  ∧ no_regenerated Fake.deck
  ∧ (∀ j, ¬ dup_at Fake.deck_pruned j)
  ∧ (process_pdf Fake.deck_out Fake.deck_again).1
    = match save_error Fake.deck_out Fake.deck_pruned Fake.deck_again with
      | None => Return 0
      | Some e => Raise e
      end
  ∧ deletions (process_pdf Fake.deck_out Fake.deck_again).2 = []
  ∧ saves (process_pdf Fake.deck_out Fake.deck_again).2
    = [(Fake.deck_again, Fake.deck_pruned)].
Proof.
  split; [reflexivity|]. split; [vm_compute; reflexivity|].
  split; [reflexivity|]. split; [exact deck_no_regenerated|].
  apply (process_pdf_idempotent (fitz:=Fake.fitz)
           Fake.deck_pdf Fake.deck_out Fake.deck_out Fake.deck_again
           Fake.deck Fake.deck_pruned).
  - reflexivity.
  - vm_compute; reflexivity.
  - reflexivity.
  - exact deck_no_regenerated.
Defined.

Lemma main_missing_source_witness :
  path_exists (path_resolve "nowhere") = false
  ∧ main "nowhere" "processed"
    = (SysExit 1,
       [EvPrint ("Source directory not found: "
                 +:+ str_abs (path_resolve "nowhere") +:+ nl)])
  ∧ exit_status (main "nowhere" "processed").1 = 1%Z
  ∧ opens (main "nowhere" "processed").2 = []
  ∧ writes (main "nowhere" "processed").2 = [].
Proof.
  split; [reflexivity|].
  apply (main_missing_source (fitz:=Fake.fitz) (os:=Fake.os)
           "nowhere" "processed").
  reflexivity.
Defined.

(** * Scenarios *)

(** The deck loses its three build steps, highest index first. *)
Example deck_deleted :
  deletions (process_pdf Fake.deck_pdf Fake.deck_out).2 = [3; 2; 0]
  ∧ (process_pdf Fake.deck_pdf Fake.deck_out).1 = Return 3
  ∧ saves (process_pdf Fake.deck_pdf Fake.deck_out).2
    = [(Fake.deck_out, Fake.deck_pruned)].
Proof. vm_compute. done. Qed.

(** A three-page document whose middle page has other dimensions: no pair
    matches, nothing is rasterised, nothing is removed. *)
Example mixed_untouched :
  (process_pdf Fake.mixed_pdf Fake.deck_out).1 = Return 0
  ∧ renders (process_pdf Fake.mixed_pdf Fake.deck_out).2 = []
  ∧ deletions (process_pdf Fake.mixed_pdf Fake.deck_out).2 = []
  ∧ saves (process_pdf Fake.mixed_pdf Fake.deck_out).2
    = [(Fake.deck_out, Fake.mixed)].
Proof. vm_compute. done. Qed.

(** A file that cannot be read: the exception leaves [process_pdf] right
    after the attempt to open it. *)
Example unreadable :
  process_pdf Fake.deck_again Fake.deck_out
  = (Raise LoadError, [EvOpen Fake.deck_again]).
Proof. reflexivity. Qed.

(** A whole run: the PDF is processed, the other file is copied, and the
    interpreter exits with status 0. *)
Example main_slides :
  exit_status (main "slides" "processed").1 = 0%Z
  ∧ opens (main "slides" "processed").2 = [Fake.deck_pdf]
  ∧ deletions (main "slides" "processed").2 = [3; 2; 0]
  ∧ writes (main "slides" "processed").2
    = [EvMkdir Fake.processed;
       EvSave Fake.deck_out (mkSaveOpts 4 true) Fake.deck_pruned;
       EvMkdir Fake.processed;
       EvCopy2 (Fake.slides ++ ["notes.txt"%string])
               (Fake.processed ++ ["notes.txt"%string])].
Proof. vm_compute. done. Qed.

(** A document without pages: the save is refused and the document is
    left open. *)
Example blank_refused :
  process_pdf Fake.blank_pdf Fake.blank_out
  = (Raise ValueError,
     [EvOpen Fake.blank_pdf; EvMkdir Fake.processed;
      EvSave Fake.blank_out save_defaults []]).
Proof. vm_compute. done. Qed.

(** The deck saved onto itself: it is pruned in memory, then the save is
    refused. *)
Example deck_in_place :
  (process_pdf Fake.deck_pdf Fake.deck_pdf).1 = Raise ValueError
  ∧ deletions (process_pdf Fake.deck_pdf Fake.deck_pdf).2 = [3; 2; 0]
  ∧ last (process_pdf Fake.deck_pdf Fake.deck_pdf).2
    = Some (EvSave Fake.deck_pdf (mkSaveOpts 4 true) Fake.deck_pruned).
Proof. vm_compute. done. Qed.

(** A file that cannot be copied stops the run: the PDF that follows it
    in the directory is never opened. *)
Example main_dangling :
  (main (os:=Trees.dangling) "slides" "processed").1 = Raise OSError
  ∧ opens (main (os:=Trees.dangling) "slides" "processed").2 = []
  ∧ last (main (os:=Trees.dangling) "slides" "processed").2
    = Some (EvCopy2 (Fake.slides ++ ["link.txt"%string])
                    (Fake.processed ++ ["link.txt"%string])).
Proof. vm_compute. done. Qed.

(** * Further properties of the detector and of [process_pdf] *)

Section MoreProofs.
Context {fitz : Fitz}.

Lemma opens_app (l1 l2 : list Event) : opens (l1 ++ l2) = opens l1 ++ opens l2.
Proof. apply omap_app. Qed.

Lemma is_render_scan_log (doc : list Page) :
  Forall (λ e, ∃ p mat clip, e = EvGetPixmap p mat clip) (scan_log doc).
Proof.
  unfold scan_log. induction (range 1 (length doc)) as [|i l IH]; [constructor|].
  cbn [flat_map]. apply Forall_app. split; [|done].
  unfold step_log. destruct (doc !! (i - 1)) as [a|]; [|constructor].
  destruct (doc !! i) as [b|]; [|constructor].
  rewrite regions_match_run. cbn [snd].
  case_decide; repeat constructor; eauto.
Qed.

Lemma process_pdf_load_error (src dst : Path) :
  fitz_open src = None →
  process_pdf src dst = (Raise LoadError, [EvOpen src]).
Proof.
  intros Hopen. unfold process_pdf, open. rewrite Hopen.
  by rewrite bind_tell.
Qed.

(** X1.  A source file that cannot be read: the exception of [fitz.open]
    leaves [process_pdf] at once.  The attempt to open is the whole log:
    no directory is created and nothing is saved. *)
Theorem process_pdf_unreadable (src dst : Path) :
  fitz_open src = None →
  process_pdf src dst = (Raise LoadError, [EvOpen src])
  ∧ writes (process_pdf src dst).2 = [].
Proof. intros Hopen. by rewrite (process_pdf_load_error _ _ Hopen). Qed.


Lemma writes_app (l1 l2 : list Event) :
  writes (l1 ++ l2) = writes l1 ++ writes l2.
Proof. apply filter_app. Qed.

Lemma writes_renders_only (l : list Event) :
  Forall (λ e, ∃ p mat clip, e = EvGetPixmap p mat clip) l →
  writes l = [] ∧ opens l = [].
Proof.
  induction 1 as [|e l (p & mat & clip & ->) _ [IHw IHo]]; [done|].
  split; [|done]. unfold writes in *. by rewrite filter_cons.
Qed.

Lemma writes_delete_events (dels : list nat) :
  writes (EvDeletePage <$> dels) = [] ∧ opens (EvDeletePage <$> dels) = [].
Proof.
  induction dels as [|pg dels [IHw IHo]]; [done|].
  split; [|done]. rewrite fmap_cons. unfold writes in *.
  by rewrite filter_cons.
Qed.

Lemma save_error_same_file (name : Path) (doc : list Page) :
  save_error name doc name = Some ValueError.
Proof. unfold save_error. by rewrite bool_decide_eq_true_2. Qed.

Lemma save_error_no_page (name dst : Path) :
  save_error name [] dst = Some ValueError.
Proof. unfold save_error. by case_bool_decide. Qed.

Lemma process_pdf_writes (src dst : Path) (doc : list Page) :
  fitz_open src = Some doc →
  ∃ (out : list Page) (opts : SaveOpts),
    opts = (if bool_decide (length doc ≤ 1) then save_defaults
            else mkSaveOpts 4 true)
    ∧ writes (process_pdf src dst).2
      = [EvMkdir (parent dst); EvSave dst opts out]
    ∧ opens (process_pdf src dst).2 = [src]
    ∧ match save_error src out dst with
      | None => last (process_pdf src dst).2 = Some EvClose
                ∧ ∃ r, (process_pdf src dst).1 = Return r
      | Some e => last (process_pdf src dst).2 = Some (EvSave dst opts out)
                  ∧ (process_pdf src dst).1 = Raise e
      end
    ∧ (dst = src ∨ doc = [] → (process_pdf src dst).1 = Raise ValueError).
Proof.
  intros Hopen. exists (prune doc). eexists. split; [reflexivity|].
  rewrite (process_pdf_run _ _ _ Hopen). cbn [fst snd].
  destruct (writes_renders_only _ (is_render_scan_log doc)) as [Hw Ho].
  destruct (writes_delete_events (reverse (marked doc))) as [Hw' Ho'].
  change (EvOpen src :: ?l) with ([EvOpen src] ++ l).
  rewrite !writes_app, !opens_app, Hw, Hw', Ho, Ho'.
  split; [by destruct (save_error src (prune doc) dst)|].
  split; [by destruct (save_error src (prune doc) dst)|].
  split.
  - rewrite !last_app. destruct (save_error src (prune doc) dst); eauto.
  - intros [->| ->].
    + by rewrite save_error_same_file.
    + by rewrite save_error_no_page.
Qed.



(** X4.  The saved document, page by page: it consists of the pages of
    the input at the indices [i] that are not [dup_at], in their original
    order, where [dup_at doc i] says that the detector returns true on
    page [i] and the page after it.  So a page survives exactly when it
    is the last page or is not matched with its successor. *)
Theorem process_pdf_output_by_index (src dst : Path) (doc : list Page) :
  fitz_open src = Some doc →
  saves (process_pdf src dst).2
  = [(dst,
      omap (λ i, doc !! i)
        (filter (λ i, ¬ dup_at doc i) (seq 0 (length doc))))]
  ∧ (∀ i, dup_at doc i ↔
          ∃ a b, doc !! i = Some a ∧ doc !! S i = Some b
                 ∧ (regions_match a b).1 = Return true).
Proof.
  intros Hopen. split.
  - by rewrite (process_pdf_saves _ _ _ Hopen), prune_by_index.
  - intros i. rewrite dup_at_iff.
    split; intros (a & b & Ha & Hb & Hd); exists a, b;
      by rewrite ?regions_match_true in *.
Qed.

(** X5.  The forward scan of [process_pdf] never raises (both [doc[i-1]]
    and [doc[i]] exist at every step) and builds its list in strictly
    ascending order, every entry at most page_count - 2.  No index is
    marked twice, so in [sorted(set(pages_to_delete), reverse=True)] the
    set drops nothing and the sort is a plain reversal. *)
Theorem scan_marks_ascending (doc : list Page) :
  ∃ (l : list nat) (log : list Event),
    for_in (range 1 (length doc)) (λ (pages_to_delete : list nat) (i : nat),
        prev_page ← getitem doc (i - 1);
        curr_page ← getitem doc i;
        dup ← regions_match prev_page curr_page;
        if (dup : bool) then mret (pages_to_delete ++ [i - 1])
        else mret pages_to_delete) []
    = (Return l, log)
    ∧ StronglySorted lt l
    ∧ Forall (λ j, j + 2 ≤ length doc) l
    ∧ sorted_set_reverse l = reverse l
    ∧ length (sorted_set_reverse l) = length l.
Proof.
  exists (marked doc), (scan_log doc).
  split; [|split; [|split; [|split]]].
  - destruct doc as [|a doc]; [done|].
    unfold range. rewrite (scan_loop (a :: doc) _ 0 []) by (cbn; lia).
    done.
  - apply marked_sorted.
  - apply Forall_forall. intros j Hj%marked_bound. lia.
  - apply sorted_set_reverse_ascending, marked_sorted.
  - rewrite sorted_set_reverse_ascending by apply marked_sorted.
    apply length_reverse.
Qed.

Lemma step_log_renders (doc : list Page) i :
  length (renders (step_log doc i)) ≤ 2
  ∧ Forall (λ '(p, clip), p ∈ doc
                          ∧ ∃ a, a ∈ doc ∧ clip = top_region (page_rect a))
      (renders (step_log doc i)).
Proof.
  unfold step_log. destruct (doc !! (i - 1)) as [a|] eqn:Ha.
  2: { split; [cbn; lia|constructor]. }
  destruct (doc !! i) as [b|] eqn:Hb.
  2: { split; [cbn; lia|constructor]. }
  apply list_elem_of_lookup_2 in Ha, Hb.
  rewrite regions_match_run. cbn [snd]. case_decide.
  - split; [cbn; lia|]. repeat constructor; eauto.
  - split; [cbn; lia|constructor].
Qed.

(** X6.  The cost of [process_pdf] in rasterisations: at most two per
    adjacent pair, hence at most 2 * (page_count - 1); every one of them
    renders a page of the document through the top region of a page of
    the document.  No other clip is ever rendered. *)
Theorem process_pdf_render_bound (src dst : Path) (doc : list Page) :
  fitz_open src = Some doc →
  length (renders (process_pdf src dst).2) ≤ 2 * (length doc - 1)
  ∧ Forall (λ '(p, clip), p ∈ doc
                          ∧ ∃ a, a ∈ doc ∧ clip = top_region (page_rect a))
      (renders (process_pdf src dst).2).
Proof.
  intros Hopen.
  assert (renders (process_pdf src dst).2 = renders (scan_log doc)) as ->.
  { rewrite (process_pdf_run _ _ _ Hopen). cbn [snd].
    change (EvOpen src :: ?l) with ([EvOpen src] ++ l).
    rewrite !renders_app, renders_delete_events.
    destruct (closing_quiet (save_error src (prune doc) dst)) as (_ & _ & ->).
    cbn. by rewrite app_nil_r. }
  unfold scan_log, range.
  assert (∀ l : list nat,
    length (renders (flat_map (step_log doc) l)) ≤ 2 * length l
    ∧ Forall (λ '(p, clip), p ∈ doc
                            ∧ ∃ a, a ∈ doc ∧ clip = top_region (page_rect a))
        (renders (flat_map (step_log doc) l))) as Hall.
  { induction l as [|i l [IHn IHf]]; [split; [done|constructor]|].
    cbn [flat_map]. rewrite renders_app, length_app.
    destruct (step_log_renders doc i) as [Hn Hf].
    split; [cbn [length]; lia|]. by apply Forall_app. }
  destruct (Hall (seq 1 (length doc - 1))) as [Hn Hf].
  rewrite length_seq in Hn. done.
Qed.

(** X7.  On pages that have the same rectangle the verdict of the
    detector does not depend on the order of its two arguments, and it is
    transitive: if [a] matches [b] and [b] matches [c], then [a] matches
    [c].  This is what makes a run of build steps collapse onto its last
    page. *)
Theorem regions_match_same_rect (a b c : Page) :
  page_rect a = page_rect b →
  (regions_match b a).1 = (regions_match a b).1
  ∧ ((regions_match a b).1 = Return true →
     (regions_match b c).1 = Return true →
     (regions_match a c).1 = Return true).
Proof.
  intros Hrect. split.
  - rewrite !regions_match_run. cbn [fst]. f_equal.
    apply bool_decide_ext. unfold duplicate_pair. rewrite Hrect.
    split; intros [Hd Hpx]; (split; [by apply same_dims_sym|done]).
  - rewrite !regions_match_true. unfold duplicate_pair. rewrite Hrect.
    intros [Hab Hpx] [Hbc Hpx']. split; [by eapply same_dims_trans|].
    by rewrite Hpx.
Qed.

Lemma descending_strict (d : list nat) :
  StronglySorted (flip le) d → NoDup d → StronglySorted (flip lt) d.
Proof.
  induction 1 as [|x d Hd IH Hx]; intros Hnodup; [constructor|].
  apply NoDup_cons in Hnodup as [Hnotin Hnodup].
  constructor; [by apply IH|].
  rewrite Forall_forall in Hx |- *. intros y Hy.
  specialize (Hx y Hy). unfold flip in *.
  assert (x ≠ y) by (by intros ->). lia.
Qed.

Lemma sorted_set_reverse_descending (l : list nat) :
  StronglySorted (flip lt) (sorted_set_reverse l)
  ∧ (∀ pg, pg ∈ sorted_set_reverse l ↔ pg ∈ l).
Proof.
  unfold sorted_set_reverse.
  set (s := list_to_set l : gset nat).
  assert (merge_sort (flip le) (elements s) ≡ₚ elements s) as Hperm.
  { apply merge_sort_Permutation. }
  split.
  - assert (NoDup (merge_sort (flip le) (elements s))) as Hnodup.
    { rewrite Hperm. apply NoDup_elements. }
    assert (StronglySorted (flip le) (merge_sort (flip le) (elements s)))
      as Hsorted.
    { apply StronglySorted_merge_sort.
      - intros x y z. unfold flip. lia.
      - intros x y. unfold flip. lia. }
    by apply descending_strict.
  - intros pg. rewrite Hperm, elem_of_elements. unfold s.
    apply elem_of_list_to_set.
Qed.

Lemma foldl_delete_shape (dels : list nat) : ∀ doc : list Page,
  StronglySorted (flip lt) dels →
  Forall (λ pg, pg < length doc) dels →
  length (foldl (λ d pg, delete pg d) doc dels) = length doc - length dels
  ∧ foldl (λ d pg, delete pg d) doc dels `sublist_of` doc.
Proof.
  induction dels as [|pg dels IH]; intros doc Hs Hb.
  - cbn. split; [lia|done].
  - apply StronglySorted_inv in Hs as [Hs Hpg].
    apply Forall_cons in Hb as [Hlt Hb].
    assert (length (delete pg doc) = length doc - 1) as Hlen.
    { apply length_delete. by apply lookup_lt_is_Some_2. }
    destruct (IH (delete pg doc)) as [Hn Hsub]; [done| |].
    { rewrite Hlen. rewrite Forall_forall in Hpg |- *.
      intros y Hy. specialize (Hpg y Hy). unfold flip in Hpg. lia. }
    cbn [foldl length]. split; [lia|].
    etrans; [done|]. apply sublist_delete.
Qed.

(** X13.  The pruning phase on its own.  For any list of marks within
    the page range, in any order and with repetitions,
    [sorted(set(marks), reverse=True)] holds the same indices, each once,
    in strictly descending order; the deletion loop over it never raises,
    calls [delete_page] once per distinct mark, removes that many pages
    and leaves a subsequence of the document. *)
Theorem prune_phase_safe (doc : list Page) (l : list nat) :
  Forall (λ pg, pg < length doc) l →
  let dels := sorted_set_reverse l in
  StronglySorted (flip lt) dels
  ∧ (∀ pg, pg ∈ dels ↔ pg ∈ l)
  ∧ ∃ out : list Page,
      for_in dels delete_page doc = (Return out, EvDeletePage <$> dels)
      ∧ length out = length doc - length dels
      ∧ out `sublist_of` doc.
Proof.
  intros Hbound dels.
  destruct (sorted_set_reverse_descending l) as [Hsorted Hsame].
  assert (Forall (λ pg, pg < length doc) dels) as Hbound'.
  { rewrite Forall_forall in Hbound |- *. intros pg Hpg.
    by apply Hbound, Hsame. }
  split; [done|]. split; [done|].
  destruct (delete_loop dels doc Hsorted Hbound') as [Hrun _].
  destruct (foldl_delete_shape dels doc Hsorted Hbound') as [Hlen Hsub].
  by eexists.
Qed.

End MoreProofs.

(** * Properties of the batch walk *)

Section WalkProofs.
Context {fitz : Fitz} {os : OS}.

Lemma ret_bind {A B} (a : A) (f : A → M B) : ((Return a, []) ≫= f) = f a.
Proof. rewrite bind_return. by destruct (f a). Qed.

Lemma bind_log {A B} (m : M A) (f : A → M B) :
  (m ≫= f).2 = m.2 ++ match m.1 with Return a => (f a).2 | _ => [] end.
Proof.
  destruct m as [[a|e|code] l]; [by rewrite bind_return|..];
    unfold mbind, M_mbind, M_bind; cbn [fst snd]; by rewrite app_nil_r.
Qed.

Lemma bind_raise {A B} (e : Exn) (l : list Event) (f : A → M B) :
  ((Raise e, l) ≫= f) = (Raise e, l).
Proof. done. Qed.

(** A sequence that returns: both parts returned. *)
Lemma bind_returns {A B} (m : M A) (f : A → M B) (b : B) (log : list Event) :
  (m ≫= f) = (Return b, log) →
  ∃ a l1 l2, m = (Return a, l1) ∧ f a = (Return b, l2) ∧ log = l1 ++ l2.
Proof.
  destruct m as [[a|e|code] l]; [|done..].
  rewrite bind_return. destruct (f a) as [o l2] eqn:Hf. cbn [fst snd].
  intros [= -> <-]. by exists a, l, l2.
Qed.

Lemma for_in_app {A S} (l1 l2 : list A) (body : S → A → M S) (s : S) :
  for_in (l1 ++ l2) body s = (for_in l1 body s ≫= for_in l2 body).
Proof.
  revert s. induction l1 as [|x l1 IH]; intros s.
  - cbn [app for_in]. by rewrite ret_unfold, ret_bind.
  - cbn [app for_in]. destruct (body s x) as [[s'|e|code] l]; [|done..].
    rewrite !bind_return, IH.
    destruct (for_in l1 body s') as [[s''|e|code] l']; [|done..].
    rewrite !bind_return. cbn [fst snd].
    by rewrite bind_return, app_assoc.
Qed.

Lemma copies_app (l1 l2 : list Event) :
  copies (l1 ++ l2) = copies l1 ++ copies l2.
Proof. apply omap_app. Qed.

Lemma targets_app (l1 l2 : list Event) :
  targets (l1 ++ l2) = targets l1 ++ targets l2.
Proof. apply omap_app. Qed.

(** ** One file *)

Lemma handle_file_other (DST_DIR root rel : Path) c fname :
  is_pdf fname = false →
  handle_file DST_DIR root rel c fname
  = (match copy2_error (root ++ [fname]) (DST_DIR ++ rel ++ [fname]) with
     | None => Return (mkCounters (total_removed c) (pdf_count c)
                                  (other_count c + 1))
     | Some e => Raise e
     end,
     [EvMkdir (DST_DIR ++ rel);
      EvCopy2 (root ++ [fname]) (DST_DIR ++ rel ++ [fname])]
     ++ match copy2_error (root ++ [fname]) (DST_DIR ++ rel ++ [fname]) with
        | None =>
            [EvPrint ("Copied    : " +:+ str_rel (rel ++ [fname]) +:+ nl)]
        | Some _ => []
        end).
Proof.
  intros Hname. unfold handle_file. fold (is_pdf fname). rewrite Hname.
  assert (parent (DST_DIR ++ rel ++ [fname]) = DST_DIR ++ rel) as ->.
  { unfold parent. by rewrite !app_assoc, removelast_last. }
  unfold mkdir, copy2, print. rewrite bind_tell.
  destruct (copy2_error (root ++ [fname]) (DST_DIR ++ rel ++ [fname])).
  - by rewrite bind_tell.
  - by rewrite !bind_tell, ret_unfold.
Qed.

Lemma handle_file_pdf (DST_DIR root rel : Path) c fname :
  is_pdf fname = true →
  handle_file DST_DIR root rel c fname
  = (match (process_pdf (root ++ [fname]) (DST_DIR ++ rel ++ [fname])).1 with
     | Return removed =>
         Return (mkCounters (total_removed c + removed) (pdf_count c + 1)
                            (other_count c))
     | Raise e => Raise e
     | SysExit code => SysExit code
     end,
     EvPrint ("Processing: " +:+ str_rel (rel ++ [fname]) +:+ " ... ")
     :: (process_pdf (root ++ [fname]) (DST_DIR ++ rel ++ [fname])).2
     ++ match (process_pdf (root ++ [fname])
                           (DST_DIR ++ rel ++ [fname])).1 with
        | Return removed =>
            [EvPrint ("removed " +:+ pretty removed +:+ " pages" +:+ nl)]
        | _ => []
        end).
Proof.
  intros Hname. unfold handle_file. fold (is_pdf fname). rewrite Hname.
  unfold print. rewrite bind_tell.
  destruct (process_pdf _ _) as [[removed|e|code] l]; cbn [fst snd].
  - by rewrite bind_return, bind_tell, ret_unfold.
  - by rewrite app_nil_r.
  - by rewrite app_nil_r.
Qed.

Lemma copies_writes (log : list Event) : copies log = copies (writes log).
Proof.
  induction log as [|e log IH]; [done|].
  unfold writes, copies, targets in *. rewrite filter_cons.
  destruct e; cbn; by rewrite ?IH.
Qed.

Lemma targets_writes (log : list Event) : targets log = targets (writes log).
Proof.
  induction log as [|e log IH]; [done|].
  unfold writes, copies, targets in *. rewrite filter_cons.
  destruct e; cbn; by rewrite ?IH.
Qed.

Lemma relative_to_under (base rel : Path) :
  relative_to (base ++ rel) base = (Return rel, []).
Proof.
  induction base as [|b base IH]; [by destruct rel|].
  cbn. by rewrite bool_decide_eq_true_2.
Qed.

Lemma relative_to_silent (p base : Path) : (relative_to p base).2 = [].
Proof.
  revert p. induction base as [|b base IH]; intros p; [by destruct p|].
  destruct p as [|c p]; [done|]. cbn. case_bool_decide; [apply IH|done].
Qed.

Lemma mirror_under (SRC_DIR DST_DIR rel : Path) :
  mirror SRC_DIR DST_DIR (SRC_DIR ++ rel) = DST_DIR ++ rel.
Proof. unfold mirror. by rewrite drop_app_length. Qed.

(** ** Bookkeeping *)

Lemma accounted_refl (c : Counters) : accounted c c [].
Proof. unfold accounted. cbn. lia. Qed.

Lemma accounted_trans (c c1 c2 : Counters) (l1 l2 : list Event) :
  accounted c c1 l1 → accounted c1 c2 l2 → accounted c c2 (l1 ++ l2).
Proof.
  unfold accounted. intros (Hp & Ht & Ho) (Hp' & Ht' & Ho').
  rewrite opens_app, deletions_app, copies_app, !length_app. lia.
Qed.

Lemma walk_paths_app (keep : string → bool)
    (w1 w2 : list (Path * list string * list string)) :
  walk_paths keep (w1 ++ w2) = walk_paths keep w1 ++ walk_paths keep w2.
Proof. unfold walk_paths. apply flat_map_app. Qed.

Lemma walk_paths_files (keep : string → bool) (root : Path)
    (dirs files1 files2 : list string) :
  walk_paths keep [(root, dirs, files1 ++ files2)]
  = walk_paths keep [(root, dirs, files1)]
    ++ walk_paths keep [(root, dirs, files2)].
Proof.
  unfold walk_paths. cbn [flat_map].
  by rewrite !app_nil_r, filter_app, fmap_app.
Qed.

Lemma routed_combine (SRC_DIR DST_DIR : Path)
    (w w1 w2 : list (Path * list string * list string))
    (l1 l2 : list Event) :
  (∀ keep, walk_paths keep w = walk_paths keep w1 ++ walk_paths keep w2) →
  routed SRC_DIR DST_DIR w1 l1 → routed SRC_DIR DST_DIR w2 l2 →
  routed SRC_DIR DST_DIR w (l1 ++ l2).
Proof.
  intros Hw (Ho & Hs & Hc) (Ho' & Hs' & Hc'). unfold routed.
  rewrite opens_app, saves_app, copies_app, !Hw, !fmap_app.
  by rewrite Ho, Ho', Hs, Hs', Hc, Hc'.
Qed.

Lemma routed_nil (SRC_DIR DST_DIR : Path) : routed SRC_DIR DST_DIR [] [].
Proof. done. Qed.

Lemma routed_no_files (SRC_DIR DST_DIR root : Path) (dirs : list string) :
  routed SRC_DIR DST_DIR [(root, dirs, [])] [].
Proof. done. Qed.

Lemma filter_one (keep : string → bool) (fname : string) :
  filter keep [fname] = if keep fname then [fname] else [].
Proof. rewrite filter_cons. by destruct (keep fname). Qed.

Lemma walk_paths_one (keep : string → bool) (root : Path)
    (dirs : list string) (fname : string) :
  walk_paths keep [(root, dirs, [fname])]
  = if keep fname then [root ++ [fname]] else [].
Proof.
  unfold walk_paths. cbn [flat_map]. rewrite app_nil_r, filter_one.
  by destruct (keep fname).
Qed.

Lemma pages_at_Some (p : Path) (doc : list Page) :
  fitz_open p = Some doc → pages_at p = doc.
Proof. unfold pages_at. by intros ->. Qed.

(** One file of a directory under the source root, when it goes
    through. *)
Lemma handle_file_ok (SRC_DIR DST_DIR rel : Path) (dirs : list string)
    c fname :
  file_ok DST_DIR (SRC_DIR ++ rel) rel fname →
  ∃ c' log,
    handle_file DST_DIR (SRC_DIR ++ rel) rel c fname = (Return c', log)
    ∧ routed SRC_DIR DST_DIR [(SRC_DIR ++ rel, dirs, [fname])] log
    ∧ accounted c c' log.
Proof.
  unfold file_ok. intros Hok. destruct (is_pdf fname) eqn:Hname.
  - destruct Hok as [[doc Hopen] Hsave].
    rewrite (pages_at_Some _ _ Hopen) in Hsave.
    rewrite (handle_file_pdf _ _ _ _ _ Hname).
    rewrite (process_pdf_outcome _ _ _ Hopen), Hsave.
    eexists _, _. split; [done|].
    destruct (process_pdf_writes _ (DST_DIR ++ rel ++ [fname]) _ Hopen)
      as (out & opts & _ & Hw & Ho & _).
    pose proof (process_pdf_saves _ (DST_DIR ++ rel ++ [fname]) _ Hopen)
      as Hs.
    pose proof (process_pdf_deleted _ (DST_DIR ++ rel ++ [fname]) _ Hopen)
      as Hd.
    assert (copies (process_pdf ((SRC_DIR ++ rel) ++ [fname])
                      (DST_DIR ++ rel ++ [fname])).2 = []) as Hc.
    { by rewrite copies_writes, Hw. }
    split.
    + unfold routed. rewrite !walk_paths_one, Hname.
      cbn [negb fmap list_fmap].
      change (EvPrint ?t :: ?l) with ([EvPrint t] ++ l).
      rewrite !opens_app, !saves_app, !copies_app, Ho, Hs, Hc. cbn.
      rewrite (pages_at_Some _ _ Hopen).
      by rewrite <- (app_assoc SRC_DIR), mirror_under.
    + unfold accounted.
      change (EvPrint ?t :: ?l) with ([EvPrint t] ++ l).
      rewrite !opens_app, !deletions_app, !copies_app.
      rewrite Ho, Hd, Hc, !length_app, length_reverse.
      cbn [total_removed pdf_count other_count opens deletions copies omap
           list_omap length app]. lia.
  - rewrite (handle_file_other _ _ _ _ _ Hname), Hok.
    eexists _, _. split; [done|]. split.
    + unfold routed. rewrite !walk_paths_one, Hname. cbn.
      by rewrite <- (app_assoc SRC_DIR), mirror_under.
    + unfold accounted. cbn. lia.
Qed.

(** One file, the other way round: if [handle_file] returns, the file
    went through. *)
Lemma handle_file_returns (DST_DIR root rel : Path) c fname c' log :
  handle_file DST_DIR root rel c fname = (Return c', log) →
  file_ok DST_DIR root rel fname.
Proof.
  unfold file_ok. destruct (is_pdf fname) eqn:Hname.
  - rewrite (handle_file_pdf _ _ _ _ _ Hname).
    destruct (fitz_open (root ++ [fname])) as [doc|] eqn:Hopen.
    + rewrite (process_pdf_outcome _ _ _ Hopen).
      rewrite (pages_at_Some _ _ Hopen).
      destruct (save_error (root ++ [fname]) (prune doc)
                  (DST_DIR ++ rel ++ [fname])); [done|].
      intros _. split; [by eexists|done].
    + by rewrite (process_pdf_load_error _ _ Hopen).
  - rewrite (handle_file_other _ _ _ _ _ Hname).
    by destruct (copy2_error (root ++ [fname]) (DST_DIR ++ rel ++ [fname])).
Qed.

(** ** The two loops, when every file goes through *)

Lemma files_loop (SRC_DIR DST_DIR rel : Path) (dirs files : list string) :
  ∀ c,
  Forall (file_ok DST_DIR (SRC_DIR ++ rel) rel) files →
  ∃ c' log,
    for_in files (handle_file DST_DIR (SRC_DIR ++ rel) rel) c
    = (Return c', log)
    ∧ routed SRC_DIR DST_DIR [(SRC_DIR ++ rel, dirs, files)] log
    ∧ accounted c c' log.
Proof.
  induction files as [|fname files IH]; intros c Hok.
  - exists c, []. split; [done|]. split; [done|]. apply accounted_refl.
  - apply Forall_cons in Hok as [Hfile Hfiles].
    destruct (handle_file_ok SRC_DIR DST_DIR rel dirs c fname Hfile)
      as (c1 & l1 & Hrun1 & Hrouted1 & Hacc1).
    destruct (IH c1 Hfiles) as (c2 & l2 & Hrun2 & Hrouted2 & Hacc2).
    exists c2, (l1 ++ l2). split; [|split].
    + cbn [for_in]. by rewrite Hrun1, bind_return, Hrun2.
    + eapply routed_combine; [|done..].
      intros keep. apply (walk_paths_files keep _ dirs [fname] files).
    + by eapply accounted_trans.
Qed.

Lemma files_loop_returns (DST_DIR root rel : Path) (files : list string) :
  ∀ c c' log,
  for_in files (handle_file DST_DIR root rel) c = (Return c', log) →
  Forall (file_ok DST_DIR root rel) files.
Proof.
  induction files as [|fname files IH]; intros c c' log Hrun; [constructor|].
  cbn [for_in] in Hrun.
  apply bind_returns in Hrun as (c1 & l1 & l2 & Hfile & Hrest & _).
  constructor; [by eapply handle_file_returns|by eapply IH].
Qed.

(** The conditions on a walk, entry by entry. *)
Lemma walk_entry_ok (SRC_DIR DST_DIR rel : Path) (dirs files : list string) :
  Forall (file_ok DST_DIR (SRC_DIR ++ rel) rel) files
  ↔ walk_readable [(SRC_DIR ++ rel, dirs, files)]
    ∧ walk_faultless SRC_DIR DST_DIR [(SRC_DIR ++ rel, dirs, files)].
Proof.
  unfold walk_readable, walk_faultless.
  induction files as [|fname files IH].
  { split; [|constructor]. intros _. by repeat split. }
  rewrite Forall_cons, IH.
  rewrite !(walk_paths_files _ _ dirs [fname] files), !Forall_app.
  rewrite !walk_paths_one. unfold file_ok.
  destruct (is_pdf fname); cbn [negb];
    rewrite ?Forall_singleton, ?Forall_nil,
            <- ?(app_assoc SRC_DIR rel [fname]), ?mirror_under;
    tauto.
Qed.

Lemma walk_conditions_cons (SRC_DIR DST_DIR : Path)
    (entry : Path * list string * list string)
    (walk : list (Path * list string * list string)) :
  walk_readable (entry :: walk)
  ∧ walk_faultless SRC_DIR DST_DIR (entry :: walk)
  ↔ (walk_readable [entry] ∧ walk_faultless SRC_DIR DST_DIR [entry])
    ∧ (walk_readable walk ∧ walk_faultless SRC_DIR DST_DIR walk).
Proof.
  unfold walk_readable, walk_faultless.
  rewrite !(walk_paths_app _ [entry] walk), !Forall_app. tauto.
Qed.

Lemma handle_dir_entry (SRC_DIR DST_DIR root : Path)
    (dirs files : list string) (c : Counters) :
  handle_dir SRC_DIR DST_DIR c (root, dirs, files)
  = (rel ← relative_to root SRC_DIR;
     for_in files (handle_file DST_DIR root rel) c).
Proof. done. Qed.

Lemma relative_to_returns (base : Path) : ∀ (p rel : Path) l,
  relative_to p base = (Return rel, l) → p = base ++ rel ∧ l = [].
Proof.
  induction base as [|b base IH]; intros p rel l Hrun.
  - destruct p; by injection Hrun as <- <-.
  - destruct p as [|c p]; [done|]. cbn in Hrun.
    case_bool_decide as Hbc; [|done]. subst c.
    apply IH in Hrun as [-> ->]. done.
Qed.

Lemma dirs_loop (SRC_DIR DST_DIR : Path)
    (walk : list (Path * list string * list string)) :
  ∀ c,
  walk_under SRC_DIR walk → walk_readable walk →
  walk_faultless SRC_DIR DST_DIR walk →
  ∃ c' log,
    for_in walk (handle_dir SRC_DIR DST_DIR) c = (Return c', log)
    ∧ routed SRC_DIR DST_DIR walk log
    ∧ accounted c c' log.
Proof.
  induction walk as [|[[root dirs] files] walk IH];
    intros c Hunder Hreadable Hfaultless.
  - exists c, []. split; [done|]. split; [done|]. apply accounted_refl.
  - apply Forall_cons in Hunder as [[rel ->] Hunder].
    destruct (proj1 (walk_conditions_cons SRC_DIR DST_DIR _ _)
                (conj Hreadable Hfaultless))
      as [Hentry [Hreadable' Hfaultless']].
    apply walk_entry_ok in Hentry.
    destruct (files_loop SRC_DIR DST_DIR rel dirs files c Hentry)
      as (c1 & l1 & Hrun1 & Hrouted1 & Hacc1).
    destruct (IH c1 Hunder Hreadable' Hfaultless')
      as (c2 & l2 & Hrun2 & Hrouted2 & Hacc2).
    exists c2, (l1 ++ l2). split; [|split].
    + cbn [for_in]. rewrite handle_dir_entry.
      rewrite relative_to_under, (ret_bind rel).
      by rewrite Hrun1, bind_return, Hrun2.
    + eapply routed_combine; [|done..].
      intros keep.
      apply (walk_paths_app keep [(SRC_DIR ++ rel, dirs, files)] walk).
    + by eapply accounted_trans.
Qed.

(** The walk, the other way round: if the outer loop returns, every
    directory it was given lies under the source root, every PDF could
    be read, and no save and no copy raised. *)
Lemma dirs_loop_returns (SRC_DIR DST_DIR : Path)
    (walk : list (Path * list string * list string)) :
  ∀ c c' log,
  for_in walk (handle_dir SRC_DIR DST_DIR) c = (Return c', log) →
  walk_under SRC_DIR walk
  ∧ walk_readable walk
  ∧ walk_faultless SRC_DIR DST_DIR walk.
Proof.
  induction walk as [|[[root dirs] files] walk IH]; intros c c' log Hrun.
  { split; [constructor|]. split; [constructor|]. split; constructor. }
  cbn [for_in] in Hrun.
  apply bind_returns in Hrun as (c1 & l1 & l2 & Hentry & Hrest & _).
  rewrite handle_dir_entry in Hentry.
  apply bind_returns in Hentry as (rel & l0 & l3 & Hrel & Hfiles & _).
  apply relative_to_returns in Hrel as [-> _].
  apply files_loop_returns in Hfiles.
  apply (walk_entry_ok SRC_DIR DST_DIR rel dirs) in Hfiles.
  destruct (IH _ _ _ Hrest) as (Hunder & Hrest').
  split.
  - constructor; [by exists rel|done].
  - by apply walk_conditions_cons.
Qed.

(** ** The walk, when a PDF cannot be read *)

Lemma handle_file_unreadable (DST_DIR root rel : Path) c bad :
  is_pdf bad = true →
  fitz_open (root ++ [bad]) = None →
  handle_file DST_DIR root rel c bad
  = (Raise LoadError,
     [EvPrint ("Processing: " +:+ str_rel (rel ++ [bad]) +:+ " ... ");
      EvOpen (root ++ [bad])]).
Proof.
  intros Hname Hopen. rewrite (handle_file_pdf _ _ _ _ _ Hname).
  by rewrite (process_pdf_load_error _ _ Hopen).
Qed.

Lemma dirs_loop_abort (SRC_DIR DST_DIR root : Path)
    (pre post : list (Path * list string * list string))
    (dirs files1 files2 : list string) (bad : string) (c : Counters) :
  walk_under SRC_DIR (pre ++ [(root, dirs, files1)]) →
  walk_readable (pre ++ [(root, dirs, files1)]) →
  walk_faultless SRC_DIR DST_DIR (pre ++ [(root, dirs, files1)]) →
  is_pdf bad = true →
  fitz_open (root ++ [bad]) = None →
  ∃ log text,
    for_in (pre ++ (root, dirs, files1 ++ bad :: files2) :: post)
           (handle_dir SRC_DIR DST_DIR) c
    = (Raise LoadError, log ++ [EvPrint text; EvOpen (root ++ [bad])])
    ∧ routed SRC_DIR DST_DIR (pre ++ [(root, dirs, files1)]) log.
Proof.
  intros [Hpre Hroot]%Forall_app Hreadable Hfaultless Hname Hopen.
  apply Forall_singleton in Hroot as [rel ->].
  unfold walk_readable in Hreadable. rewrite walk_paths_app in Hreadable.
  apply Forall_app in Hreadable as [Hreadable Hfiles].
  destruct Hfaultless as [Hsaves Hcopies].
  rewrite walk_paths_app in Hsaves, Hcopies.
  apply Forall_app in Hsaves as [Hsaves Hsaves'].
  apply Forall_app in Hcopies as [Hcopies Hcopies'].
  destruct (dirs_loop SRC_DIR DST_DIR pre c Hpre Hreadable
              (conj Hsaves Hcopies))
    as (c1 & l1 & Hrun1 & Hrouted1 & _).
  destruct (files_loop SRC_DIR DST_DIR rel dirs files1 c1)
    as (c2 & l2 & Hrun2 & Hrouted2 & _).
  { apply (walk_entry_ok SRC_DIR DST_DIR rel dirs).
    split; [done|]. by split. }
  eexists (l1 ++ l2), _. split.
  - rewrite for_in_app, Hrun1, bind_return. cbn [for_in].
    rewrite handle_dir_entry, relative_to_under, (ret_bind rel).
    rewrite for_in_app, Hrun2, bind_return. cbn [for_in].
    rewrite (handle_file_unreadable _ _ _ _ _ Hname Hopen).
    rewrite !bind_raise. cbn [fst snd]. rewrite !bind_raise. cbn [fst snd].
    by rewrite app_assoc.
  - eapply routed_combine; [|done..].
    intros keep. apply walk_paths_app.
Qed.

End WalkProofs.

Section MainWalkProofs.
Context {fitz : Fitz} {os : OS}.

(** [main] once the source directory has been found: three lines of
    header, the walk, and the summary if the walk comes to its end. *)
Lemma main_run (src dst : string) :
  path_exists (path_resolve src) = true →
  let SRC_DIR := path_resolve src in
  let DST_DIR := path_resolve dst in
  let loop := for_in (os_walk SRC_DIR) (handle_dir SRC_DIR DST_DIR)
                     (mkCounters 0 0 0) in
  main src dst
  = (match loop.1 with
     | Return _ => Return ()
     | Raise e => Raise e
     | SysExit code => SysExit code
     end,
     [EvPrint ("Source : " +:+ str_abs SRC_DIR +:+ nl);
      EvPrint ("Dest   : " +:+ str_abs DST_DIR +:+ nl);
      EvPrint nl]
     ++ loop.2
     ++ match loop.1 with
        | Return c => [EvPrint nl; EvPrint (summary c)]
        | _ => []
        end).
Proof.
  intros Hexists SRC_DIR DST_DIR loop.
  assert (main src dst
          = (print ("Source : " +:+ str_abs SRC_DIR +:+ nl);;
             print ("Dest   : " +:+ str_abs DST_DIR +:+ nl);;
             print nl;;
             c ← loop;
             print nl;;
             print (summary c))) as ->.
  { unfold main. rewrite Hexists. cbn [negb].
    by rewrite ret_unfold, ret_bind. }
  unfold print. rewrite !bind_tell. cbn [fst snd app].
  destruct loop as [[c|e|code] l]; cbn [fst snd].
  - rewrite bind_return, !bind_tell. done.
  - by rewrite app_nil_r.
  - by rewrite app_nil_r.
Qed.

(** A run of [main] that returns normally: the source directory was
    found, the walk came to its end, and every file went through. *)
Lemma main_returns (src dst : string) :
  (main src dst).1 = Return () →
  let SRC_DIR := path_resolve src in
  let DST_DIR := path_resolve dst in
  ∃ c log,
    (main src dst).2
    = [EvPrint ("Source : " +:+ str_abs SRC_DIR +:+ nl);
       EvPrint ("Dest   : " +:+ str_abs DST_DIR +:+ nl);
       EvPrint nl]
      ++ log ++ [EvPrint nl; EvPrint (summary c)]
    ∧ routed SRC_DIR DST_DIR (os_walk SRC_DIR) log
    ∧ accounted (mkCounters 0 0 0) c log
    ∧ walk_under SRC_DIR (os_walk SRC_DIR)
    ∧ walk_readable (os_walk SRC_DIR)
    ∧ walk_faultless SRC_DIR DST_DIR (os_walk SRC_DIR).
Proof.
  intros Hret SRC_DIR DST_DIR.
  destruct (path_exists (path_resolve src)) eqn:Hexists.
  2: { unfold main in Hret. rewrite Hexists in Hret. cbn [negb] in Hret.
       unfold print, sys_exit in Hret. by rewrite bind_tell in Hret. }
  rewrite (main_run _ _ Hexists) in Hret |- *. cbn [fst snd] in Hret |- *.
  fold SRC_DIR DST_DIR in Hret |- *.
  destruct (for_in (os_walk SRC_DIR) (handle_dir SRC_DIR DST_DIR)
              (mkCounters 0 0 0)) as [[c|e|code] log] eqn:Hloop;
    cbn [fst snd] in Hret |- *; [|done..].
  destruct (dirs_loop_returns _ _ _ _ _ _ Hloop)
    as (Hunder & Hreadable & Hfaultless).
  destruct (dirs_loop SRC_DIR DST_DIR _ (mkCounters 0 0 0)
              Hunder Hreadable Hfaultless)
    as (c' & log' & Hloop' & Hrouted & Hacc).
  rewrite Hloop in Hloop'. injection Hloop' as <- <-.
  by exists c, log.
Qed.

(** X8.  The batch contract of [main], for every run that returns
    normally (exit status 0).  In such a run the documents opened are
    the files that the walk yielded whose name ends in [.pdf] in any
    letter case, in the order of the walk; [save] was called once for
    each, with its pruned page sequence, at the same relative path under
    the destination; every other file was copied, once, to the same
    relative path under the destination.  A normal return also tells
    that every PDF met could be read and that no save and no copy
    raised: any of these failures ends the run with the exception. *)
Theorem main_mirrors_tree (src dst : string) :
  (main src dst).1 = Return () →
  exit_status (main src dst).1 = 0%Z
  ∧ routed (path_resolve src) (path_resolve dst)
           (os_walk (path_resolve src)) (main src dst).2
  ∧ walk_readable (os_walk (path_resolve src))
  ∧ walk_faultless (path_resolve src) (path_resolve dst)
                   (os_walk (path_resolve src)).
Proof.
  intros Hret.
  destruct (main_returns src dst Hret)
    as (c & log & Hlog & (Ho & Hs & Hc) & _ & _ & Hreadable & Hfaultless).
  rewrite Hret, Hlog. split; [done|]. split; [|done].
  unfold routed.
  rewrite !opens_app, !saves_app, !copies_app, Ho, Hs, Hc. cbn.
  by rewrite !app_nil_r.
Qed.

(** X9.  The summary line tells the truth.  In every run of [main] that
    returns normally, the last line printed reports as many PDFs as
    documents were opened, as many removed pages as [delete_page] was
    called, and as many other files as copies were made. *)
Theorem main_summary_truthful (src dst : string) :
  (main src dst).1 = Return () →
  last (main src dst).2
  = Some (EvPrint (summary
       (mkCounters (length (deletions (main src dst).2))
                   (length (opens (main src dst).2))
                   (length (copies (main src dst).2))))).
Proof.
  intros Hret.
  destruct (main_returns src dst Hret)
    as (c & log & Hlog & _ & (Hp & Ht & Ho) & _).
  rewrite Hlog.
  rewrite !opens_app, !deletions_app, !copies_app, !last_app.
  cbn [opens deletions copies omap list_omap app last].
  rewrite !app_nil_r. cbn in Hp, Ht, Ho. rewrite <- Hp, <- Ht, <- Ho.
  by destruct c.
Qed.

Lemma for_in_targets {A S} (Q : Path → Prop) (l : list A)
    (body : S → A → M S) :
  (∀ s x, Forall Q (targets (body s x).2)) →
  ∀ s, Forall Q (targets (for_in l body s).2).
Proof.
  intros Hbody. induction l as [|x l IH]; intros s; [constructor|].
  cbn [for_in]. rewrite bind_log, targets_app. apply Forall_app.
  split; [apply Hbody|]. destruct (body s x).1; [apply IH|constructor..].
Qed.

Lemma process_pdf_targets (src dst : Path) :
  Forall (λ p, p = parent dst ∨ p = dst) (targets (process_pdf src dst).2).
Proof.
  destruct (fitz_open src) as [doc|] eqn:Hopen.
  - destruct (process_pdf_writes src dst doc Hopen)
      as (out & opts & _ & Hw & _).
    rewrite targets_writes, Hw. cbn.
    constructor; [by left|]. constructor; [by right|constructor].
  - rewrite (process_pdf_load_error src dst Hopen). constructor.
Qed.

Lemma handle_file_targets (DST_DIR root rel : Path) c fname :
  Forall (λ p, DST_DIR `prefix_of` p)
         (targets (handle_file DST_DIR root rel c fname).2).
Proof.
  assert (DST_DIR `prefix_of` DST_DIR ++ rel) as Hdir.
  { by apply prefix_app_r. }
  assert (DST_DIR `prefix_of` DST_DIR ++ rel ++ [fname]) as Hfile.
  { by apply prefix_app_r. }
  destruct (is_pdf fname) eqn:Hname.
  - rewrite (handle_file_pdf _ _ _ _ _ Hname). cbn [snd].
    change (EvPrint ?t :: ?l) with ([EvPrint t] ++ l).
    rewrite !targets_app. apply Forall_app. split; [constructor|].
    apply Forall_app. split.
    + eapply Forall_impl; [apply process_pdf_targets|].
      intros p [->| ->]; [|done]. unfold parent.
      by rewrite !app_assoc, removelast_last.
    + destruct (process_pdf _ _).1; constructor.
  - rewrite (handle_file_other _ _ _ _ _ Hname). cbn [snd].
    rewrite targets_app. apply Forall_app. split.
    + cbn. by repeat constructor.
    + destruct (copy2_error _ _); constructor.
Qed.

(** X10.  Whatever the file system holds and however the run ends,
    every path that [main] hands to [mkdir], to [save] or, as the
    destination, to [shutil.copy2] is the resolved destination root or a
    path below it.  (What [mkdir(parents=True)] does above the path it
    is given, when the destination root itself is missing, is outside
    the statement.) *)
Theorem main_writes_under_destination (src dst : string) :
  Forall (λ p, path_resolve dst `prefix_of` p) (targets (main src dst).2).
Proof.
  destruct (path_exists (path_resolve src)) eqn:Hexists.
  - rewrite (main_run _ _ Hexists). cbn [snd].
    rewrite !targets_app. apply Forall_app. split; [constructor|].
    apply Forall_app. split.
    + apply for_in_targets. intros c [[root dirs] files].
      rewrite handle_dir_entry, bind_log, relative_to_silent. cbn [app].
      destruct (relative_to root (path_resolve src)).1; [|constructor..].
      apply for_in_targets. intros c' fname. apply handle_file_targets.
    + destruct (for_in _ _ _).1; constructor.
  - unfold main. rewrite Hexists. cbn [negb]. unfold print, sys_exit.
    rewrite bind_tell. constructor.
Qed.

(** X11.  One unreadable PDF stops the batch.  If the walk reaches a file
    named like a PDF that [fitz.open] cannot read, with everything before
    it readable and saved or copied without failure, then [main] ends
    with the uncaught exception (exit status 1); the files before it
    were treated as the batch contract says; the failed attempt to open
    is the last event, so the files after it are neither processed nor
    copied and no summary is printed. *)
Theorem main_aborts_on_unreadable (src dst : string) (root : Path)
    (pre post : list (Path * list string * list string))
    (dirs files1 files2 : list string) (bad : string) :
  path_exists (path_resolve src) = true →
  os_walk (path_resolve src)
  = pre ++ (root, dirs, files1 ++ bad :: files2) :: post →
  walk_under (path_resolve src) (pre ++ [(root, dirs, files1)]) →
  walk_readable (pre ++ [(root, dirs, files1)]) →
  walk_faultless (path_resolve src) (path_resolve dst)
                 (pre ++ [(root, dirs, files1)]) →
  is_pdf bad = true →
  fitz_open (root ++ [bad]) = None →
  (main src dst).1 = Raise LoadError
  ∧ exit_status (main src dst).1 = 1%Z
  ∧ ∃ log text,
      (main src dst).2 = log ++ [EvPrint text; EvOpen (root ++ [bad])]
      ∧ routed (path_resolve src) (path_resolve dst)
               (pre ++ [(root, dirs, files1)]) log.
Proof.
  intros Hexists Hwalk Hunder Hreadable Hfaultless Hname Hopen.
  destruct (dirs_loop_abort (path_resolve src) (path_resolve dst) root
              pre post dirs files1 files2 bad (mkCounters 0 0 0)
              Hunder Hreadable Hfaultless Hname Hopen)
    as (log & text & Hloop & Ho & Hs & Hc).
  rewrite (main_run _ _ Hexists), Hwalk, Hloop. cbn [fst snd].
  split; [done|]. split; [done|].
  eexists (_ :: _ :: _ :: log), text. split.
  - by rewrite app_nil_r.
  - unfold routed.
    change (?e1 :: ?e2 :: ?e3 :: log) with ([e1; e2; e3] ++ log).
    by rewrite !opens_app, !saves_app, !copies_app, Ho, Hs, Hc.
Qed.

(** ** How a run can end *)

Lemma bind_outcome {A B} (m : M A) (f : A → M B) :
  (m ≫= f).1
  = match m.1 with
    | Return a => (f a).1
    | Raise e => Raise e
    | SysExit code => SysExit code
    end.
Proof. destruct m as [[a|e|code] l]; [by rewrite bind_return|done..]. Qed.

Lemma for_in_no_exit {A S} (l : list A) (body : S → A → M S) :
  (∀ s x code, (body s x).1 ≠ SysExit code) →
  ∀ s code, (for_in l body s).1 ≠ SysExit code.
Proof.
  intros Hbody. induction l as [|x l IH]; intros s code; [done|].
  cbn [for_in]. rewrite bind_outcome.
  destruct (body s x).1 as [s'|e|c] eqn:Hb; [apply IH|done|].
  by destruct (Hbody s x c).
Qed.

Lemma process_pdf_no_exit (src dst : Path) code :
  (process_pdf src dst).1 ≠ SysExit code.
Proof.
  destruct (fitz_open src) as [doc|] eqn:Hopen.
  - rewrite (process_pdf_outcome _ _ _ Hopen).
    by destruct (save_error src (prune doc) dst).
  - by rewrite (process_pdf_load_error _ _ Hopen).
Qed.

Lemma handle_file_no_exit (DST_DIR root rel : Path) c fname code :
  (handle_file DST_DIR root rel c fname).1 ≠ SysExit code.
Proof.
  destruct (is_pdf fname) eqn:Hname.
  - rewrite (handle_file_pdf _ _ _ _ _ Hname). cbn [fst].
    destruct (process_pdf _ _).1 as [r|e|c'] eqn:Hrun; [done..|].
    by destruct (process_pdf_no_exit _ _ _ Hrun).
  - rewrite (handle_file_other _ _ _ _ _ Hname). cbn [fst].
    by destruct (copy2_error _ _).
Qed.

Lemma relative_to_no_exit (base : Path) : ∀ (p : Path) code,
  (relative_to p base).1 ≠ SysExit code.
Proof.
  induction base as [|b base IH]; intros p code; [by destruct p|].
  destruct p as [|c p]; [done|]. cbn. case_bool_decide; [apply IH|done].
Qed.

Lemma handle_dir_no_exit (SRC_DIR DST_DIR : Path) c
    (entry : Path * list string * list string) code :
  (handle_dir SRC_DIR DST_DIR c entry).1 ≠ SysExit code.
Proof.
  destruct entry as [[root dirs] files].
  rewrite handle_dir_entry, bind_outcome.
  destruct (relative_to root SRC_DIR).1 as [rel|e|c'] eqn:Hrel; [|done|].
  - apply for_in_no_exit. intros. apply handle_file_no_exit.
  - by destruct (relative_to_no_exit _ _ _ Hrel).
Qed.

(** The three ways in which [main] ends. *)
Lemma main_outcome (src dst : string) :
  (main src dst).1 = Return ()
  ∨ (path_exists (path_resolve src) = true ∧ ∃ e, (main src dst).1 = Raise e)
  ∨ (path_exists (path_resolve src) = false ∧ (main src dst).1 = SysExit 1).
Proof.
  destruct (path_exists (path_resolve src)) eqn:Hexists.
  - rewrite (main_run _ _ Hexists). cbn [fst].
    destruct (for_in _ _ _).1 as [c|e|code] eqn:Hloop.
    + by left.
    + right. left. split; [done|]. by exists e.
    + exfalso. revert Hloop. apply for_in_no_exit.
      intros. apply handle_dir_no_exit.
  - right. right. split; [done|]. unfold main. rewrite Hexists. cbn [negb].
    unfold print, sys_exit. by rewrite bind_tell.
Qed.

(** X16.  Once the arguments are parsed, the exit status of [main] is 0
    or 1.  It is 0 exactly when [main] returns normally; every other run
    ends with status 1: either through [sys.exit(1)], which happens only
    when the source directory is missing, or through an uncaught
    exception. *)
Theorem main_exit_status (src dst : string) :
  (exit_status (main src dst).1 = 0%Z ∨ exit_status (main src dst).1 = 1%Z)
  ∧ (exit_status (main src dst).1 = 0%Z ↔ (main src dst).1 = Return ())
  ∧ (∀ code, (main src dst).1 = SysExit code →
       code = 1%Z ∧ path_exists (path_resolve src) = false)
  ∧ (path_exists (path_resolve src) = true →
     (main src dst).1 = Return () ∨ ∃ e, (main src dst).1 = Raise e).
Proof.
  destruct (main_outcome src dst)
    as [Hret|[[Hexists [e Hraise]]|[Hmissing Hexit]]].
  - rewrite Hret. cbn. split; [by left|]. split; [done|].
    split; [done|]. by left.
  - rewrite Hraise. cbn. split; [by right|]. split; [done|].
    split; [done|]. right. by exists e.
  - rewrite Hexit. cbn. split; [by right|]. split; [done|].
    split; [by intros code [= <-]|]. by rewrite Hmissing.
Qed.

Lemma elem_of_walk_paths (keep : string → bool)
    (walk : list (Path * list string * list string))
    (root : Path) (dirs files : list string) (fname : string) :
  (root, dirs, files) ∈ walk → fname ∈ files → keep fname = true →
  root ++ [fname] ∈ walk_paths keep walk.
Proof.
  intros Hentry Hfile Hkeep. unfold walk_paths.
  apply list_elem_of_In, in_flat_map. exists (root, dirs, files).
  split; [by apply list_elem_of_In|]. apply list_elem_of_In.
  apply list_elem_of_fmap. exists fname. split; [done|].
  apply list_elem_of_filter. split; [by rewrite Hkeep|done].
Qed.

(** A run whose destination is the source directory itself. *)
Lemma main_in_place (src dst : string) (root : Path)
    (dirs files : list string) (fname : string) :
  path_resolve dst = path_resolve src →
  (root, dirs, files) ∈ os_walk (path_resolve src) →
  fname ∈ files →
  (main src dst).1 ≠ Return ().
Proof.
  intros Hsame Hentry Hfile Hret.
  destruct (main_returns src dst Hret)
    as (_ & _ & _ & _ & _ & Hunder & _ & Hsaves & Hcopies).
  rewrite Hsame in Hsaves, Hcopies.
  unfold walk_under in Hunder. rewrite Forall_forall in Hunder.
  destruct (Hunder _ Hentry) as [rel ->].
  rewrite Forall_forall in Hsaves, Hcopies.
  destruct (is_pdf fname) eqn:Hname.
  - pose proof (Hsaves _ (elem_of_walk_paths is_pdf _ _ _ _ _
                            Hentry Hfile Hname)) as Hsave.
    rewrite <- (app_assoc (path_resolve src)), mirror_under in Hsave.
    by rewrite save_error_same_file in Hsave.
  - assert (negb (is_pdf fname) = true) as Hname' by (by rewrite Hname).
    pose proof (Hcopies _ (elem_of_walk_paths (λ f, negb (is_pdf f))
                             _ _ _ _ _ Hentry Hfile Hname')) as Hcopy.
    rewrite <- (app_assoc (path_resolve src)), mirror_under in Hcopy.
    unfold copy2_error in Hcopy. by rewrite bool_decide_eq_true_2 in Hcopy.
Qed.

(** X15.  Processing a tree in place does not work.  When the
    destination resolves to the source directory and the walk meets at
    least one file, [main] ends with an uncaught exception (exit status
    1): the first PDF that can be read is refused by [save], which does
    not overwrite the file a document was opened from, and the first
    other file is refused by [shutil.copy2], which does not copy a file
    onto itself. *)
Theorem main_in_place_fails (src dst : string) (root : Path)
    (dirs files : list string) (fname : string) :
  path_exists (path_resolve src) = true →
  path_resolve dst = path_resolve src →
  (root, dirs, files) ∈ os_walk (path_resolve src) →
  fname ∈ files →
  (∃ e, (main src dst).1 = Raise e)
  ∧ exit_status (main src dst).1 = 1%Z.
Proof.
  intros Hexists Hsame Hentry Hfile.
  pose proof (main_in_place src dst root dirs files fname Hsame Hentry Hfile)
    as Hfails.
  destruct (main_outcome src dst)
    as [Hret|[[_ [e Hraise]]|[Hmissing _]]].
  - done.
  - rewrite Hraise. split; [by exists e|done].
  - by rewrite Hexists in Hmissing.
Qed.

End MainWalkProofs.

(** * The file-name test *)

Lemma append_cons (c : ascii) (s1 s2 : string) :
  String c s1 +:+ s2 = String c (s1 +:+ s2).
Proof. reflexivity. Qed.

Lemma lower_app (s1 s2 : string) : lower (s1 +:+ s2) = lower s1 +:+ lower s2.
Proof.
  induction s1 as [|c s1 IH]; [done|].
  cbn [lower]. rewrite !append_cons. cbn [lower]. by rewrite IH.
Qed.

Lemma lower_length (s : string) : String.length (lower s) = String.length s.
Proof.
  induction s as [|c s IH]; [done|]. cbn [lower String.length].
  by rewrite IH.
Qed.

Lemma lower_substring (s : string) : ∀ k m,
  lower (String.substring k m s) = String.substring k m (lower s).
Proof.
  induction s as [|c s IH]; intros k m.
  - by destruct k, m.
  - destruct k as [|k]; [|apply IH].
    destruct m as [|m]; [done|]. cbn [lower String.substring].
    by rewrite IH.
Qed.

Lemma string_length_app (s1 s2 : string) :
  String.length (s1 +:+ s2) = String.length s1 + String.length s2.
Proof.
  induction s1 as [|c s1 IH]; [done|].
  rewrite append_cons. cbn [String.length]. by rewrite IH.
Qed.

Lemma substring_whole (s : string) :
  String.substring 0 (String.length s) s = s.
Proof.
  induction s as [|c s IH]; [done|]. cbn [String.length String.substring].
  by rewrite IH.
Qed.

Lemma substring_app_r (s1 s2 : string) :
  String.substring (String.length s1) (String.length s2) (s1 +:+ s2) = s2.
Proof.
  induction s1 as [|c s1 IH]; [apply substring_whole|].
  rewrite append_cons. cbn [String.length String.substring]. apply IH.
Qed.

Lemma substring_split (s : string) : ∀ k,
  k ≤ String.length s →
  s = String.substring 0 k s
      +:+ String.substring k (String.length s - k) s.
Proof.
  induction s as [|c s IH]; intros k Hk.
  - by destruct k.
  - destruct k as [|k].
    + by rewrite Nat.sub_0_r, substring_whole.
    + cbn [String.length] in Hk.
      cbn [String.length String.substring Nat.sub].
      rewrite append_cons. f_equal. apply IH. lia.
Qed.

(** X12.  Which files [main] treats as documents: exactly those whose
    name ends with an extension that is [.pdf] up to the case of its
    letters ([.pdf], [.PDF], [.Pdf], ...); the part before the extension
    plays no role and may be empty. *)
Theorem is_pdf_any_case (fname : string) :
  is_pdf fname = true
  ↔ ∃ stem ext, fname = stem +:+ ext ∧ lower ext = ".pdf"%string.
Proof.
  unfold is_pdf, endswith. split.
  - intros [Hlen Heq]%andb_true_iff.
    apply bool_decide_eq_true in Hlen. apply String.eqb_eq in Heq.
    rewrite lower_length in Hlen, Heq.
    exists (String.substring 0 (String.length fname - 4) fname),
           (String.substring (String.length fname - 4) 4 fname).
    split; [|by rewrite lower_substring].
    cbn [String.length] in Hlen.
    rewrite (substring_split fname (String.length fname - 4)) at 1 by lia.
    do 2 f_equal. lia.
  - intros (stem & ext & -> & Hext).
    rewrite lower_app, Hext, string_length_app.
    apply andb_true_iff. split.
    + apply bool_decide_eq_true. lia.
    + apply String.eqb_eq.
      replace (String.length (lower stem) + String.length ".pdf"
               - String.length ".pdf") with (String.length (lower stem))
        by lia.
      apply substring_app_r.
Qed.

(** * The further properties on the test doubles *)

Lemma process_pdf_unreadable_witness :
  fitz_open Fake.deck_again = None
  ∧ process_pdf Fake.deck_again Fake.deck_out
    = (Raise LoadError, [EvOpen Fake.deck_again])
  ∧ writes (process_pdf Fake.deck_again Fake.deck_out).2 = [].
Proof.
  split; [reflexivity|].
  apply (process_pdf_unreadable (fitz:=Fake.fitz)
           Fake.deck_again Fake.deck_out).
  reflexivity.
Defined.




Lemma process_pdf_output_by_index_witness :
  fitz_open Fake.deck_pdf = Some Fake.deck
  ∧ saves (process_pdf Fake.deck_pdf Fake.deck_out).2
    = [(Fake.deck_out,
        omap (λ i, Fake.deck !! i)
          (filter (λ i, ¬ dup_at Fake.deck i) (seq 0 (length Fake.deck))))]
  ∧ (∀ i, dup_at Fake.deck i ↔
          ∃ a b, Fake.deck !! i = Some a ∧ Fake.deck !! S i = Some b
                 ∧ (regions_match a b).1 = Return true).
Proof.
  split; [reflexivity|].
  apply (process_pdf_output_by_index (fitz:=Fake.fitz)
           Fake.deck_pdf Fake.deck_out Fake.deck).
  reflexivity.
Defined.

Lemma process_pdf_render_bound_witness :
  fitz_open Fake.deck_pdf = Some Fake.deck
  ∧ length (renders (process_pdf Fake.deck_pdf Fake.deck_out).2)
    ≤ 2 * (length Fake.deck - 1)
  ∧ Forall (λ '(p, clip),
              p ∈ Fake.deck
              ∧ ∃ a, a ∈ Fake.deck
                     ∧ clip = top_region (page_rect (Fitz:=Fake.fitz) a))
      (renders (process_pdf Fake.deck_pdf Fake.deck_out).2).
Proof.
  split; [reflexivity|].
  apply (process_pdf_render_bound (fitz:=Fake.fitz)
           Fake.deck_pdf Fake.deck_out Fake.deck).
  reflexivity.
Defined.

Lemma prune_phase_safe_witness :
  Forall (λ pg, pg < length Fake.deck) [2; 0; 2; 5]
  ∧ (let dels := sorted_set_reverse [2; 0; 2; 5] in
     StronglySorted (flip lt) dels
     ∧ (∀ pg, pg ∈ dels ↔ pg ∈ [2; 0; 2; 5])
     ∧ ∃ out : list Page,
         for_in dels delete_page Fake.deck
         = (Return out, EvDeletePage <$> dels)
         ∧ length out = length Fake.deck - length dels
         ∧ out `sublist_of` Fake.deck).
Proof.
  split; [by_evaluation|].
  apply (prune_phase_safe (fitz:=Fake.fitz) Fake.deck [2; 0; 2; 5]).
  by_evaluation.
Defined.

Lemma regions_match_same_rect_witness :
  Fake.pg_rect Fake.method_step1 = Fake.pg_rect Fake.method_step2
  ∧ (regions_match (fitz:=Fake.fitz) Fake.method_step2 Fake.method_step1).1
    = (regions_match (fitz:=Fake.fitz) Fake.method_step1 Fake.method_step2).1
  ∧ ((regions_match (fitz:=Fake.fitz) Fake.method_step1 Fake.method_step2).1
     = Return true →
     (regions_match (fitz:=Fake.fitz) Fake.method_step2 Fake.method_full).1
     = Return true →
     (regions_match (fitz:=Fake.fitz) Fake.method_step1 Fake.method_full).1
     = Return true).
Proof.
  split; [reflexivity|].
  apply (regions_match_same_rect (fitz:=Fake.fitz)
           Fake.method_step1 Fake.method_step2 Fake.method_full).
  reflexivity.
Defined.

Lemma main_mirrors_tree_witness :
  (main (os:=Trees.whole) "/" "backup").1 = Return ()
  ∧ exit_status (main (os:=Trees.whole) "/" "backup").1 = 0%Z
  ∧ routed (path_resolve (OS:=Trees.whole) "/")
           (path_resolve (OS:=Trees.whole) "backup")
           (os_walk (OS:=Trees.whole) (path_resolve (OS:=Trees.whole) "/"))
           (main (os:=Trees.whole) "/" "backup").2
  ∧ walk_readable
      (os_walk (OS:=Trees.whole) (path_resolve (OS:=Trees.whole) "/"))
  ∧ walk_faultless (os:=Trees.whole)
      (path_resolve (OS:=Trees.whole) "/")
      (path_resolve (OS:=Trees.whole) "backup")
      (os_walk (OS:=Trees.whole) (path_resolve (OS:=Trees.whole) "/")).
Proof.
  split; [vm_compute; reflexivity|].
  apply (main_mirrors_tree (fitz:=Fake.fitz) (os:=Trees.whole) "/" "backup").
  vm_compute; reflexivity.
Defined.

Lemma main_summary_truthful_witness :
  (main (os:=Trees.whole) "/" "backup").1 = Return ()
  ∧ last (main (os:=Trees.whole) "/" "backup").2
    = Some (EvPrint (summary
         (mkCounters
            (length (deletions (main (os:=Trees.whole) "/" "backup").2))
            (length (opens (main (os:=Trees.whole) "/" "backup").2))
            (length (copies (main (os:=Trees.whole) "/" "backup").2))))).
Proof.
  split; [vm_compute; reflexivity|].
  apply (main_summary_truthful (fitz:=Fake.fitz) (os:=Trees.whole)
           "/" "backup").
  vm_compute; reflexivity.
Defined.


Lemma main_in_place_fails_witness :
  path_exists (path_resolve "slides") = true
  ∧ path_resolve "slides" = path_resolve "slides"
  ∧ (Fake.slides, [], ["deck.pdf"; "notes.txt"]%string)
    ∈ os_walk (path_resolve "slides")
  ∧ "deck.pdf"%string ∈ ["deck.pdf"; "notes.txt"]%string
  ∧ (∃ e, (main "slides" "slides").1 = Raise e)
  ∧ exit_status (main "slides" "slides").1 = 1%Z.
Proof.
  split; [reflexivity|]. split; [reflexivity|].
  split; [by_evaluation|]. split; [by_evaluation|].
  apply (main_in_place_fails (fitz:=Fake.fitz) (os:=Fake.os)
           "slides" "slides" Fake.slides []
           ["deck.pdf"; "notes.txt"]%string "deck.pdf").
  - reflexivity.
  - reflexivity.
  - by_evaluation.
  - by_evaluation.
Defined.

Lemma broken_walk_under :
  walk_under Fake.slides
    ([(Fake.slides, ["old"%string], ["notes.txt"%string; "deck.pdf"%string])]
     ++ [(Fake.slides ++ ["old"%string], [], ["a.txt"%string])]).
Proof.
  repeat constructor; [done|]. by apply prefix_app_r.
Qed.

Lemma broken_walk_readable :
  walk_readable
    ([(Fake.slides, ["old"%string], ["notes.txt"%string; "deck.pdf"%string])]
     ++ [(Fake.slides ++ ["old"%string], [], ["a.txt"%string])]).
Proof. unfold walk_readable. by_evaluation. Qed.

Lemma broken_walk_faultless :
  walk_faultless (os:=Trees.broken)
    (path_resolve (OS:=Trees.broken) "slides")
    (path_resolve (OS:=Trees.broken) "backup")
    ([(Fake.slides, ["old"%string], ["notes.txt"%string; "deck.pdf"%string])]
     ++ [(Fake.slides ++ ["old"%string], [], ["a.txt"%string])]).
Proof. split; vm_compute; repeat constructor. Qed.

Lemma main_aborts_on_unreadable_witness :
  path_exists (OS:=Trees.broken) (path_resolve (OS:=Trees.broken) "slides")
  = true
  ∧ os_walk (OS:=Trees.broken) (path_resolve (OS:=Trees.broken) "slides")
    = [(Fake.slides, ["old"%string],
        ["notes.txt"%string; "deck.pdf"%string])]
      ++ (Fake.slides ++ ["old"%string], [],
          ["a.txt"%string] ++ "lost.PDF"%string :: ["b.txt"%string]) :: []
  ∧ walk_under (path_resolve (OS:=Trees.broken) "slides")
      ([(Fake.slides, ["old"%string],
         ["notes.txt"%string; "deck.pdf"%string])]
       ++ [(Fake.slides ++ ["old"%string], [], ["a.txt"%string])])
  ∧ walk_readable
      ([(Fake.slides, ["old"%string],
         ["notes.txt"%string; "deck.pdf"%string])]
       ++ [(Fake.slides ++ ["old"%string], [], ["a.txt"%string])])
  ∧ walk_faultless (os:=Trees.broken)
      (path_resolve (OS:=Trees.broken) "slides")
      (path_resolve (OS:=Trees.broken) "backup")
      ([(Fake.slides, ["old"%string],
         ["notes.txt"%string; "deck.pdf"%string])]
       ++ [(Fake.slides ++ ["old"%string], [], ["a.txt"%string])])
  ∧ is_pdf "lost.PDF" = true
  ∧ fitz_open (Fake.slides ++ ["old"%string] ++ ["lost.PDF"%string]) = None
  ∧ (main (os:=Trees.broken) "slides" "backup").1 = Raise LoadError
  ∧ exit_status (main (os:=Trees.broken) "slides" "backup").1 = 1%Z
  ∧ ∃ log text,
      (main (os:=Trees.broken) "slides" "backup").2
      = log ++ [EvPrint text;
                EvOpen ((Fake.slides ++ ["old"%string])
                        ++ ["lost.PDF"%string])]
      ∧ routed (path_resolve (OS:=Trees.broken) "slides")
               (path_resolve (OS:=Trees.broken) "backup")
               ([(Fake.slides, ["old"%string],
                  ["notes.txt"%string; "deck.pdf"%string])]
                ++ [(Fake.slides ++ ["old"%string], [], ["a.txt"%string])])
               log.
Proof.
  split; [reflexivity|]. split; [reflexivity|].
  split; [exact broken_walk_under|]. split; [exact broken_walk_readable|].
  split; [exact broken_walk_faultless|].
  split; [reflexivity|]. split; [reflexivity|].
  apply (main_aborts_on_unreadable (fitz:=Fake.fitz) (os:=Trees.broken)
           "slides" "backup" (Fake.slides ++ ["old"%string])
           [(Fake.slides, ["old"%string],
             ["notes.txt"%string; "deck.pdf"%string])]
           [] [] ["a.txt"%string] ["b.txt"%string] "lost.PDF").
  - reflexivity.
  - reflexivity.
  - exact broken_walk_under.
  - exact broken_walk_readable.
  - exact broken_walk_faultless.
  - reflexivity.
  - reflexivity.
Defined.
